(** * python-inject: the [Injector] of [inject/injectors.py]

    A shallow embedding of the injector, of the scope objects it
    delegates to and of the process-wide registration slot, followed by
    the properties of binding, resolution, autobinding, registration and
    [clear].

    Python objects live in a store: injectors and scopes are mutable and
    are reached through references (an injector binds its own scopes as
    values, and a scope can be handed out by [get] and mutated directly),
    so both are kept in heaps addressed by [addr], and object identity
    ([is]) is equality of references.  Methods are computations in a
    state-and-exception monad over that store; a raised exception keeps
    the writes made before it, as in Python. *)

From stdpp Require Import gmap list.

(** ** Objects *)

Abbreviation addr := positive.

(** What may be passed as [type] (and as [factory]): the four classes the
    module itself uses as keys, and any other object of the hosting
    application, identified by a number. *)
Inductive tkey : Type :=
  | K_ApplicationScope
  | K_ThreadScope
  | K_RequestScope
  | K_Injector
  | K_user (n : positive).

#[global] Instance tkey_eq_dec : EqDecision tkey.
Proof. solve_decision. Defined.

Definition tkey_code (k : tkey) : nat + positive :=
  match k with
  | K_ApplicationScope => inl 0
  | K_ThreadScope => inl 1
  | K_RequestScope => inl 2
  | K_Injector => inl 3
  | K_user n => inr n
  end.

Definition tkey_decode (c : nat + positive) : tkey :=
  match c with
  | inl 0 => K_ApplicationScope
  | inl 1 => K_ThreadScope
  | inl 2 => K_RequestScope
  | inl _ => K_Injector
  | inr n => K_user n
  end.

#[global] Instance tkey_countable : Countable tkey.
Proof.
  apply (inj_countable' tkey_code tkey_decode).
  by intros [].
Defined.

(** Values that can be bound: [None], an application object (known by
    its identity only), a scope object, an injector object. *)
Inductive value : Type :=
  | VNone
  | VObj (id : positive)
  | VScope (a : addr)
  | VInjector (a : addr).

#[global] Instance value_eq_dec : EqDecision value.
Proof. solve_decision. Defined.

(** The failure kinds of [inject.exc], the built-in exceptions the code
    can meet, and the exceptions of the hosting application
    ([UserError]).  Only instances of Python's [Exception] are meant.
    [InvalidReference] is not a Python exception: it is the result of
    following a reference that is not in the store, which no Python
    program can hold. *)
Inductive pyexc : Type :=
  | InjectorAlreadyRegistered (another : addr)
  | NoInjectorRegistered
  | NotBoundError (type : tkey)
  | AutobindingFailed (type : tkey) (e : pyexc)
  | KeyError (type : tkey)
  | ValueError
  | TypeError
  | AttributeError
  | UserError (n : positive)
  | InvalidReference.

#[global] Instance pyexc_eq_dec : EqDecision pyexc.
Proof. solve_decision. Defined.

(** What calling an application object with no argument does: build a new
    instance, hand back an existing value, or raise.  Such a call is
    assumed not to reach back into the injector. *)
Inductive callable : Type :=
  | CallFresh
  | CallReturns (v : value)
  | CallRaises (e : pyexc).

Inductive scope_class : Type := ApplicationScope | ThreadScope | RequestScope.

#[global] Instance scope_class_eq_dec : EqDecision scope_class.
Proof. solve_decision. Defined.

(** Modelled from the spec: the scope classes of [inject/scopes.py], which
    the injector imports.  A scope owns two independent mappings,
    [_bindings] (type key to instance) and [_factories] (type key to
    zero-argument factory); the three classes share this contract.  The
    storage is the one seen by the calling thread inside the current
    request: partitioning by thread and by request is not modelled. *)
Record Scope : Type := mkScope {
  scope_cls : scope_class;
  _bindings : gmap tkey value;
  _factories : gmap tkey tkey
}.

(** Modelled from the spec: the constructors of the scope classes of
    [inject/scopes.py] give a scope with no binding and no factory. *)
Definition empty_scope (c : scope_class) : Scope := mkScope c ∅ ∅.

(** An [Injector] instance.  The three private attributes are optional
    because [clear] sets them to [None] before [_init] assigns them. *)
Record Injector : Type := mkInjector {
  autobind : bool;
  _scopes : option (gmap tkey addr);
  _scopes_stack : option (list addr);
  _app_scope : option addr
}.

(** The store: the class attribute [Injector.injector], the injector and
    scope objects, the counter of application objects built so far, and
    whether [configure_stdout_handler] has been run. *)
Record World : Type := mkWorld {
  Injector_injector : option addr;
  injectors : gmap addr Injector;
  scopes : gmap addr Scope;
  next_obj : positive;
  stdout_handler : bool
}.

Definition empty_world : World := mkWorld None ∅ ∅ 1%positive false.

Definition with_slot (s : option addr) (w : World) : World :=
  mkWorld s (injectors w) (scopes w) (next_obj w) (stdout_handler w).
Definition with_injectors (m : gmap addr Injector) (w : World) : World :=
  mkWorld (Injector_injector w) m (scopes w) (next_obj w) (stdout_handler w).
Definition with_scopes (m : gmap addr Scope) (w : World) : World :=
  mkWorld (Injector_injector w) (injectors w) m (next_obj w) (stdout_handler w).
Definition with_next_obj (n : positive) (w : World) : World :=
  mkWorld (Injector_injector w) (injectors w) (scopes w) n (stdout_handler w).
Definition with_stdout_handler (b : bool) (w : World) : World :=
  mkWorld (Injector_injector w) (injectors w) (scopes w) (next_obj w) b.

(** ** The monad of methods *)

Inductive outcome (A : Type) : Type :=
  | Ret (a : A)
  | Exc (e : pyexc).
Arguments Ret {A} a.
Arguments Exc {A} e.

Definition M (A : Type) : Type := World → outcome A * World.

Definition ret {A} (a : A) : M A := λ w, (Ret a, w).
Definition raise {A} (e : pyexc) : M A := λ w, (Exc e, w).
Definition bind_M {A B} (m : M A) (k : A → M B) : M B :=
  λ w, match m w with
       | (Ret a, w') => k a w'
       | (Exc e, w') => (Exc e, w')
       end.
Definition try_except {A} (m : M A) (handler : pyexc → M A) : M A :=
  λ w, match m w with
       | (Ret a, w') => (Ret a, w')
       | (Exc e, w') => handler e w'
       end.

Notation "'let!' x ':=' c1 'in' c2" := (bind_M c1 (λ x, c2))
  (at level 10, x name, c1 at level 100, c2 at level 200,
   format "'[v' 'let!'  x  ':='  c1  'in' '/' c2 ']'").
Notation "c1 ;; c2" := (bind_M c1 (λ _, c2))
  (at level 100, c2 at level 200, right associativity,
   format "'[v' c1 ;; '/' c2 ']'").

(** ** Store primitives *)

Definition load_scope (scope : addr) : M Scope :=
  λ w, match scopes w !! scope with
       | Some s => (Ret s, w)
       | None => (Exc InvalidReference, w)
       end.
Definition store_scope (scope : addr) (s : Scope) : M unit :=
  λ w, (Ret (), with_scopes (<[scope := s]> (scopes w)) w).
(** [ApplicationScope()], [ThreadScope()], [RequestScope()]: a new scope
    object, at an address the store does not use yet. *)
Definition new_scope (c : scope_class) : M addr :=
  λ w, let a := fresh (dom (scopes w)) in
       (Ret a, with_scopes (<[a := empty_scope c]> (scopes w)) w).

Definition load_injector (self : addr) : M Injector :=
  λ w, match injectors w !! self with
       | Some i => (Ret i, w)
       | None => (Exc InvalidReference, w)
       end.
Definition store_injector (self : addr) (i : Injector) : M unit :=
  λ w, (Ret (), with_injectors (<[self := i]> (injectors w)) w).
(** A new injector object, before [__init__] has set any attribute. *)
Definition new_injector_object : M addr :=
  λ w, let a := fresh (dom (injectors w)) in
       (Ret a, with_injectors
                 (<[a := mkInjector true None None None]> (injectors w)) w).

(** ** Scope methods *)

(** Modelled from the spec: [Scope.bind] of [inject/scopes.py] stores the
    instance under the key and overwrites silently. *)
Definition Scope_bind (scope : addr) (type : tkey) (to : value) : M unit :=
  let! s := load_scope scope in
  store_scope scope
    (mkScope (scope_cls s) (<[type := to]> (_bindings s)) (_factories s)).

(** Modelled from the spec: [Scope.unbind] of [inject/scopes.py] removes
    the binding if present and does nothing otherwise. *)
Definition Scope_unbind (scope : addr) (type : tkey) : M unit :=
  let! s := load_scope scope in
  store_scope scope
    (mkScope (scope_cls s) (delete type (_bindings s)) (_factories s)).

(** Modelled from the spec: [Scope.is_bound] of [inject/scopes.py] is true
    iff a concrete instance is stored for the key in this scope. *)
Definition Scope_is_bound (scope : addr) (type : tkey) : M bool :=
  let! s := load_scope scope in
  ret (bool_decide (is_Some (_bindings s !! type))).

(** Modelled from the spec: [Scope.bind_factory], [Scope.unbind_factory]
    and [Scope.is_factory_bound] of [inject/scopes.py] mirror the three
    methods above on the factory mapping. *)
Definition Scope_bind_factory (scope : addr) (type factory : tkey) : M unit :=
  let! s := load_scope scope in
  store_scope scope
    (mkScope (scope_cls s) (_bindings s) (<[type := factory]> (_factories s))).

Definition Scope_unbind_factory (scope : addr) (type : tkey) : M unit :=
  let! s := load_scope scope in
  store_scope scope
    (mkScope (scope_cls s) (_bindings s) (delete type (_factories s))).

Definition Scope_is_factory_bound (scope : addr) (type : tkey) : M bool :=
  let! s := load_scope scope in
  ret (bool_decide (is_Some (_factories s !! type))).

(** ** Injector: attribute access *)

(** [self._scopes_stack], as a list to iterate over or to change. *)
Definition get_scopes_stack (self : addr) : M (list addr) :=
  let! inj := load_injector self in
  match _scopes_stack inj with
  | Some stack => ret stack
  | None => raise TypeError
  end.

Definition set_scopes_stack (self : addr) (stack : option (list addr)) : M unit :=
  let! inj := load_injector self in
  store_injector self
    (mkInjector (autobind inj) (_scopes inj) stack (_app_scope inj)).

(** [self._scopes], as a dict. *)
Definition get_scopes (self : addr) : M (gmap tkey addr) :=
  let! inj := load_injector self in
  match _scopes inj with
  | Some table => ret table
  | None => raise TypeError
  end.

Definition set_scopes (self : addr) (table : option (gmap tkey addr)) : M unit :=
  let! inj := load_injector self in
  store_injector self
    (mkInjector (autobind inj) table (_scopes_stack inj) (_app_scope inj)).

(** [self._app_scope], as the receiver of a method call. *)
Definition get_app_scope (self : addr) : M addr :=
  let! inj := load_injector self in
  match _app_scope inj with
  | Some scope => ret scope
  | None => raise AttributeError
  end.

Definition set_app_scope (self : addr) (scope : option addr) : M unit :=
  let! inj := load_injector self in
  store_injector self
    (mkInjector (autobind inj) (_scopes inj) (_scopes_stack inj) scope).

(** ** Injector: bindings *)

(** The loop of [Injector.is_bound]. *)
Fixpoint is_bound_loop (stack : list addr) (type : tkey) : M bool :=
  match stack with
  | [] => ret false
  | scope :: rest =>
      let! b := Scope_is_bound scope type in
      if b then ret true else is_bound_loop rest type
  end.

Definition is_bound (self : addr) (type : tkey) : M bool :=
  let! stack := get_scopes_stack self in
  is_bound_loop stack type.

(** The loop of [Injector.unbind]: the first scope that has the type
    bound drops it, and the loop returns. *)
Fixpoint unbind_loop (stack : list addr) (type : tkey) : M unit :=
  match stack with
  | [] => ret ()
  | scope :: rest =>
      let! b := Scope_is_bound scope type in
      if b then Scope_unbind scope type else unbind_loop rest type
  end.

Definition unbind (self : addr) (type : tkey) : M unit :=
  let! stack := get_scopes_stack self in
  unbind_loop stack type.

Definition bind (self : addr) (type : tkey) (to : value) : M unit :=
  let! b := is_bound self type in
  (if b then unbind self type else ret ());;
  let! app := get_app_scope self in
  Scope_bind app type to.

Definition contains (self : addr) (type : tkey) : M bool :=
  is_bound self type.

(** ** Injector: factories *)

Fixpoint is_factory_bound_loop (stack : list addr) (type : tkey) : M bool :=
  match stack with
  | [] => ret false
  | scope :: rest =>
      let! b := Scope_is_factory_bound scope type in
      if b then ret true else is_factory_bound_loop rest type
  end.

Definition is_factory_bound (self : addr) (type : tkey) : M bool :=
  let! stack := get_scopes_stack self in
  is_factory_bound_loop stack type.

Fixpoint unbind_factory_loop (stack : list addr) (type : tkey) : M unit :=
  match stack with
  | [] => ret ()
  | scope :: rest =>
      let! b := Scope_is_factory_bound scope type in
      if b then Scope_unbind_factory scope type
      else unbind_factory_loop rest type
  end.

Definition unbind_factory (self : addr) (type : tkey) : M unit :=
  let! stack := get_scopes_stack self in
  unbind_factory_loop stack type.

Definition bind_factory (self : addr) (type factory : tkey) : M unit :=
  let! b := is_factory_bound self type in
  (if b then unbind_factory self type else ret ());;
  let! app := get_app_scope self in
  Scope_bind_factory app type factory.

(** ** Injector: scopes *)

(** [list.remove]: drops the first occurrence, [ValueError] if there is
    none. *)
Fixpoint list_remove (x : addr) (l : list addr) : option (list addr) :=
  match l with
  | [] => None
  | y :: rest =>
      if decide (y = x) then Some rest
      else option_map (cons y) (list_remove x rest)
  end.

Definition unbind_scope (self : addr) (scope_type : tkey) : M unit :=
  let! table := get_scopes self in
  if bool_decide (table !! scope_type = None) then ret ()
  else
    unbind self scope_type;;
    let! table := get_scopes self in
    match table !! scope_type with
    | None => raise (KeyError scope_type)
    | Some scope =>
        let! table := get_scopes self in
        set_scopes self (Some (delete scope_type table));;
        let! stack := get_scopes_stack self in
        match list_remove scope stack with
        | None => raise ValueError
        | Some stack' => set_scopes_stack self (Some stack')
        end
    end.

Definition bind_scope (self : addr) (scope_type : tkey) (scope : addr) : M unit :=
  unbind_scope self scope_type;;
  bind self scope_type (VScope scope);;
  let! table := get_scopes self in
  set_scopes self (Some (<[scope_type := scope]> table));;
  let! stack := get_scopes_stack self in
  set_scopes_stack self (Some (stack ++ [scope])).

Definition is_scope_bound (self : addr) (scope_type : tkey) : M bool :=
  let! table := get_scopes self in
  ret (bool_decide (is_Some (table !! scope_type))).

(** ** Injector: construction and reset *)

Definition _default_config (self : addr) : M unit :=
  bind self K_Injector (VInjector self);;
  let! thread_scope := new_scope ThreadScope in
  bind_scope self K_ThreadScope thread_scope;;
  let! reqscope := new_scope RequestScope in
  bind_scope self K_RequestScope reqscope.

Definition _init (self : addr) : M unit :=
  set_scopes self (Some ∅);;
  set_scopes_stack self (Some []);;
  let! app := new_scope ApplicationScope in
  set_app_scope self (Some app);;
  let! app := get_app_scope self in
  bind_scope self K_ApplicationScope app;;
  _default_config self.

(** Modelled from the spec: [configure_stdout_handler] of [inject/log.py]
    installs a diagnostic output sink for the whole process; the store
    records that it has run. *)
Definition configure_stdout_handler : M unit :=
  λ w, (Ret (), with_stdout_handler true w).

(** [Injector.__init__]. *)
Definition __init__ (self : addr) (autobind echo : bool) : M unit :=
  let! inj := load_injector self in
  store_injector self
    (mkInjector autobind (_scopes inj) (_scopes_stack inj) (_app_scope inj));;
  (if echo then configure_stdout_handler else ret ());;
  _init self.

(** [Injector(autobind, echo)]: a new object, then [__init__] on it. *)
Definition Injector_new (autobind echo : bool) : M addr :=
  let! self := new_injector_object in
  __init__ self autobind echo;;
  ret self.

Definition clear (self : addr) : M unit :=
  set_app_scope self None;;
  set_scopes self None;;
  set_scopes_stack self None;;
  _init self.

(** ** Process-wide registration *)

Definition cls_get_injector : M addr :=
  λ w, match Injector_injector w with
       | None => (Exc NoInjectorRegistered, w)
       | Some injector => (Ret injector, w)
       end.

Definition cls_register (injector : addr) : M unit :=
  λ w, match Injector_injector w with
       | Some another => (Exc (InjectorAlreadyRegistered another), w)
       | None => (Ret (), with_slot (Some injector) w)
       end.

(** [injector] is [None] or an injector object, which is true in a
    condition. *)
Definition cls_unregister (injector : option addr) : M unit :=
  λ w, match injector with
       | Some i =>
           if bool_decide (Injector_injector w ≠ Some i) then (Ret (), w)
           else (Ret (), with_slot None w)
       | None => (Ret (), with_slot None w)
       end.

Definition cls_is_registered (injector : option addr) : M bool :=
  λ w, match injector with
       | Some i => (Ret (bool_decide (Injector_injector w = Some i)), w)
       | None => (Ret (bool_decide (Injector_injector w ≠ None)), w)
       end.

Definition register (self : addr) : M unit := cls_register self.
Definition unregister (self : addr) : M unit := cls_unregister (Some self).
Definition is_registered (self : addr) : M bool := cls_is_registered (Some self).

(** [Injector.create], which the free function [create] forwards to. *)
Definition create (autobind echo : bool) : M addr :=
  let! injector := Injector_new autobind echo in
  register injector;;
  ret injector.

(** ** Resolution *)

Section Resolution.

(** What the objects of the hosting application do when called with no
    argument; [None] for an object that is not callable. *)
Variable classes : positive → option callable.

(** [callable(type)]. *)
Definition is_callable (type : tkey) : bool :=
  match type with
  | K_user n => bool_decide (is_Some (classes n))
  | _ => true
  end.

(** [type()]: the scope classes and [Injector] build a new object of
    theirs; an application object does what [classes] says. *)
Definition call (type : tkey) : M value :=
  match type with
  | K_ApplicationScope =>
      let! a := new_scope ApplicationScope in ret (VScope a)
  | K_ThreadScope =>
      let! a := new_scope ThreadScope in ret (VScope a)
  | K_RequestScope =>
      let! a := new_scope RequestScope in ret (VScope a)
  | K_Injector =>
      let! a := Injector_new true false in ret (VInjector a)
  | K_user n =>
      match classes n with
      | None => raise TypeError
      | Some CallFresh =>
          λ w, (Ret (VObj (next_obj w)),
                with_next_obj (Pos.succ (next_obj w)) w)
      | Some (CallReturns v) => ret v
      | Some (CallRaises e) => raise e
      end
  end.

(** Modelled from the spec: [Scope.get] of [inject/scopes.py] returns the
    stored instance if the key is bound; otherwise, if a factory is bound,
    it invokes the factory, stores the result as a concrete binding and
    returns it.  Calling it when neither is bound is outside its
    contract; a dict lookup then fails with [KeyError]. *)
Definition Scope_get (scope : addr) (type : tkey) : M value :=
  let! s := load_scope scope in
  match _bindings s !! type with
  | Some inst => ret inst
  | None =>
      match _factories s !! type with
      | Some factory =>
          let! inst := call factory in
          Scope_bind scope type inst;;
          ret inst
      | None => raise (KeyError type)
      end
  end.

(** The loop of [Injector.get]: [Some] result when a scope answered,
    [None] when the loop ran to its end. *)
Fixpoint get_loop (stack : list addr) (type : tkey) : M (option value) :=
  match stack with
  | [] => ret None
  | scope :: rest =>
      let! b := Scope_is_bound scope type in
      let! f := (if b then ret true else Scope_is_factory_bound scope type) in
      if f then
        let! inst := Scope_get scope type in ret (Some inst)
      else get_loop rest type
  end.

Definition get (self : addr) (type : tkey) (none : bool) : M value :=
  let! stack := get_scopes_stack self in
  let! found := get_loop stack type in
  match found with
  | Some inst => ret inst
  | None =>
      let! inj := load_injector self in
      if autobind inj && is_callable type then
        let! inst := try_except (call type)
                       (λ e, raise (AutobindingFailed type e)) in
        bind self type inst;;
        ret inst
      else if none then ret VNone
      else raise (NotBoundError type)
  end.

(** The free function [get_instance]. *)
Definition get_instance (type : tkey) (none : bool) : M value :=
  let! injector := cls_get_injector in
  get injector type none.

End Resolution.

(** * Vocabulary of the properties *)

(** ** What a scope holds, read off the store *)

Definition bound_in (w : World) (type : tkey) (scope : addr) : bool :=
  match scopes w !! scope with
  | Some s => bool_decide (is_Some (_bindings s !! type))
  | None => false
  end.

Definition factory_bound_in (w : World) (type : tkey) (scope : addr) : bool :=
  match scopes w !! scope with
  | Some s => bool_decide (is_Some (_factories s !! type))
  | None => false
  end.

(** The condition of the loop of [Injector.get]. *)
Definition holds (w : World) (type : tkey) (scope : addr) : bool :=
  bound_in w type scope || factory_bound_in w type scope.

(** The scope object at [scope] binds [type] to [x]. *)
Definition binds (w : World) (scope : addr) (type : tkey) (x : value) : Prop :=
  ∃ s, scopes w !! scope = Some s ∧ _bindings s !! type = Some x.

(** Every scope of a stack is an object of the store. *)
Definition stack_live (w : World) (stack : list addr) : Prop :=
  Forall (λ a, is_Some (scopes w !! a)) stack.

(** [self] is an injector whose scope stack is [stack] and whose
    application scope is [app]. *)
Definition Injector_at (w : World) (self : addr) (stack : list addr)
    (app : addr) : Prop :=
  (∃ inj, injectors w !! self = Some inj ∧
          _scopes_stack inj = Some stack ∧ _app_scope inj = Some app) ∧
  stack_live w stack.

(** The shape [_init] gives an injector: the application scope heads the
    scope stack. *)
Definition Injector_ok (w : World) (self app : addr) (rest : list addr) : Prop :=
  Injector_at w self (app :: rest) app.

(** ** Relations between the store before and after a computation *)

(** [m] leaves the store related by [R] to the store it started from,
    whatever its outcome. *)
Definition preserved (R : relation World) {A} (m : M A) : Prop :=
  ∀ w, R w (m w).2.

(** [extends w w']: every injector and scope object of [w] is in [w'],
    unchanged. *)
Definition extends (w w' : World) : Prop :=
  injectors w ⊆ injectors w' ∧ scopes w ⊆ scopes w'.

(** [frame T w w']: the injector objects of [w] are unchanged in [w'],
    and every scope of [w] is still there with the binding it had for
    [T]. *)
Definition frame (T : tkey) (w w' : World) : Prop :=
  injectors w ⊆ injectors w' ∧
  ∀ a s, scopes w !! a = Some s →
    ∃ s', scopes w' !! a = Some s' ∧ _bindings s' !! T = _bindings s !! T.

(** The registration slot is the same. *)
Definition same_slot (w w' : World) : Prop :=
  Injector_injector w' = Injector_injector w.

(** ** The default configuration *)

(** The application scope as [_init] leaves it: it binds the three
    scopes and the injector. *)
Definition default_app_scope (self app thr req : addr) : Scope :=
  mkScope ApplicationScope
    (<[K_RequestScope := VScope req]>
       (<[K_ThreadScope := VScope thr]>
          (<[K_Injector := VInjector self]>
             (<[K_ApplicationScope := VScope app]> ∅))))
    ∅.

(** The injector as [_init] leaves it. *)
Definition default_injector (ab : bool) (app thr req : addr) : Injector :=
  mkInjector ab
    (Some (<[K_RequestScope := req]>
             (<[K_ThreadScope := thr]> (<[K_ApplicationScope := app]> ∅))))
    (Some [app; thr; req])
    (Some app).

(** The store after [_init] has run on [self] from [w], with new scope
    objects at [app], [thr] and [req]. *)
Definition default_world (w : World) (self : addr) (ab : bool)
    (app thr req : addr) : World :=
  mkWorld (Injector_injector w)
    (<[self := default_injector ab app thr req]> (injectors w))
    (<[req := empty_scope RequestScope]>
       (<[thr := empty_scope ThreadScope]>
          (<[app := default_app_scope self app thr req]> (scopes w))))
    (next_obj w) (stdout_handler w).

(** Three distinct addresses at which [w] has no scope. *)
Definition new_scopes (w : World) (app thr req : addr) : Prop :=
  scopes w !! app = None ∧ scopes w !! thr = None ∧ scopes w !! req = None ∧
  app ≠ thr ∧ app ≠ req ∧ thr ≠ req.

(** The keys [_init] binds. *)
Definition default_key (type : tkey) : bool :=
  match type with
  | K_user _ => false
  | _ => true
  end.

(** The scope classes [_init] binds as scopes. *)
Definition default_scope_key (scope_type : tkey) : bool :=
  match scope_type with
  | K_ApplicationScope | K_ThreadScope | K_RequestScope => true
  | _ => false
  end.

(** ** Sequences of calls on one injector *)

(** The public methods of an injector, as calls. *)
Inductive op : Type :=
  | Op_bind (type : tkey) (to : value)
  | Op_unbind (type : tkey)
  | Op_get (type : tkey) (none : bool)
  | Op_contains (type : tkey)
  | Op_is_bound (type : tkey)
  | Op_bind_factory (type factory : tkey)
  | Op_unbind_factory (type : tkey)
  | Op_is_factory_bound (type : tkey)
  | Op_bind_scope (scope_type : tkey) (scope : addr)
  | Op_unbind_scope (scope_type : tkey)
  | Op_is_scope_bound (scope_type : tkey)
  | Op_clear
  | Op_register
  | Op_unregister
  | Op_is_registered.

(** The store after a call, whether it returned or raised. *)
Definition run_op (classes : positive → option callable) (self : addr)
    (o : op) (w : World) : World :=
  match o with
  | Op_bind type to => (bind self type to w).2
  | Op_unbind type => (unbind self type w).2
  | Op_get type none => (get classes self type none w).2
  | Op_contains type => (contains self type w).2
  | Op_is_bound type => (is_bound self type w).2
  | Op_bind_factory type factory => (bind_factory self type factory w).2
  | Op_unbind_factory type => (unbind_factory self type w).2
  | Op_is_factory_bound type => (is_factory_bound self type w).2
  | Op_bind_scope scope_type scope => (bind_scope self scope_type scope w).2
  | Op_unbind_scope scope_type => (unbind_scope self scope_type w).2
  | Op_is_scope_bound scope_type => (is_scope_bound self scope_type w).2
  | Op_clear => (clear self w).2
  | Op_register => (register self w).2
  | Op_unregister => (unregister self w).2
  | Op_is_registered => (is_registered self w).2
  end.

Definition run_ops (classes : positive → option callable) (self : addr)
    (ops : list op) (w : World) : World :=
  foldl (λ w o, run_op classes self o w) w ops.

(** A call that neither rebinds nor unbinds [T]: it is not [bind] or
    [unbind] of [T], and it does not drop or replace whole scopes. *)
Definition leaves_binding (T : tkey) (o : op) : bool :=
  match o with
  | Op_bind type _ | Op_unbind type => bool_decide (type ≠ T)
  | Op_bind_scope _ _ | Op_unbind_scope _ | Op_clear => false
  | _ => true
  end.

(** ** The registration state machine, in the words of the design *)

Inductive reg_state : Type :=
  | unregistered
  | registered (injector : addr).

Inductive reg_op : Type :=
  | reg_register (self : addr)
  | reg_unregister (injector : option addr).

(** [register] fails with already-registered, naming the registered
    instance, if any injector is registered, and otherwise moves to
    [registered self]; [unregister] with a specific injector while a
    different one is registered does nothing, and otherwise moves to
    [unregistered]. *)
Definition spec_reg_step (st : reg_state) (o : reg_op)
    : reg_state * option pyexc :=
  match o with
  | reg_register self =>
      match st with
      | registered another => (st, Some (InjectorAlreadyRegistered another))
      | unregistered => (registered self, None)
      end
  | reg_unregister (Some i) =>
      match st with
      | registered j => if decide (i = j) then (unregistered, None) else (st, None)
      | unregistered => (unregistered, None)
      end
  | reg_unregister None => (unregistered, None)
  end.

(** The state the store is in. *)
Definition reg_state_of (w : World) : reg_state :=
  match Injector_injector w with
  | None => unregistered
  | Some injector => registered injector
  end.

(** The code run for a transition. *)
Definition run_reg_op (o : reg_op) : M unit :=
  match o with
  | reg_register self => register self
  | reg_unregister injector => cls_unregister injector
  end.

Definition outcome_exc {A} (r : outcome A) : option pyexc :=
  match r with
  | Ret _ => None
  | Exc e => Some e
  end.

(** ** [clear] and what was bound before *)

(** The reading under which [clear] unbinds every key that was bound:
    if [T] was bound before [clear], it is not bound after it. *)
Definition clear_unbinds (w : World) (self : addr) (T : tkey) : Prop :=
  (is_bound self T w).1 = Ret true →
  (is_bound self T (clear self w).2).1 = Ret false.

(** ** Concrete stores *)

(** The store after [Injector()] in a fresh process: the injector is at
    address 1 and its application, thread and request scopes are at 1, 2
    and 3. *)
Definition w_default : World := (Injector_new true false empty_world).2.

(** The same with [Injector(autobind=False)]. *)
Definition w_no_autobind : World := (Injector_new false false empty_world).2.

(** A hosting application with three objects: 1 is a class that can be
    built with no argument, 2 is a class whose constructor raises, 3 is
    not callable. *)
Definition example_classes (n : positive) : option callable :=
  match n with
  | 1%positive => Some CallFresh
  | 2%positive => Some (CallRaises (UserError 1))
  | _ => None
  end.

(** ** Further vocabulary: scopes of an injector, namespaces *)

(** The scope table and the scope stack of an injector hold the same
    scope objects, each as many times in the one as in the other. *)
Definition in_sync (inj : Injector) : Prop :=
  ∃ table stack,
    _scopes inj = Some table ∧ _scopes_stack inj = Some stack ∧
    (map_to_list table).*2 ≡ₚ stack.

Definition Injector_in_sync (w : World) (self : addr) : Prop :=
  ∃ inj, injectors w !! self = Some inj ∧ in_sync inj.

(** Every scope object has the bindings it had (factories may differ),
    and no scope object has disappeared or appeared. *)
Definition same_bindings (w w' : World) : Prop :=
  ∀ a, _bindings <$> scopes w' !! a = _bindings <$> scopes w !! a.

(** Every scope object has the factories it had (bindings may differ). *)
Definition same_factories (w w' : World) : Prop :=
  ∀ a, _factories <$> scopes w' !! a = _factories <$> scopes w !! a.

(** The objects of [w] are still there in [w']: the injector objects
    unchanged, the scope objects possibly with other contents. *)
Definition keeps_objects (w w' : World) : Prop :=
  injectors w ⊆ injectors w' ∧ dom (scopes w) ⊆ dom (scopes w').

(** The calls that work on bindings and factories, as opposed to the
    calls that register scopes, reset the injector or register it. *)
Definition binding_level (o : op) : bool :=
  match o with
  | Op_bind _ _ | Op_unbind _ | Op_get _ _ | Op_contains _ | Op_is_bound _
  | Op_bind_factory _ _ | Op_unbind_factory _ | Op_is_factory_bound _
  | Op_is_scope_bound _ => true
  | _ => false
  end.

(** A scope object with one more binding, one binding less, one more
    factory, one factory less. *)
Definition scope_with (type : tkey) (to : value) (s : Scope) : Scope :=
  mkScope (scope_cls s) (<[type := to]> (_bindings s)) (_factories s).
Definition scope_without (type : tkey) (s : Scope) : Scope :=
  mkScope (scope_cls s) (delete type (_bindings s)) (_factories s).
Definition scope_with_factory (type factory : tkey) (s : Scope) : Scope :=
  mkScope (scope_cls s) (_bindings s) (<[type := factory]> (_factories s)).
Definition scope_without_factory (type : tkey) (s : Scope) : Scope :=
  mkScope (scope_cls s) (_bindings s) (delete type (_factories s)).

(** A key other than the given one. *)
Definition other_key (type : tkey) : tkey :=
  if decide (type = K_Injector) then K_ThreadScope else K_Injector.

(** ** Constructible with no argument *)

(** [T] can be built with no argument: it is callable and the call
    returns, whatever the store. *)
Definition constructible (classes : positive → option callable)
    (T : tkey) : Prop :=
  is_callable classes T = true ∧ ∀ w, ∃ inst w', call classes T w = (Ret inst, w').

(** The reading under which a miss is reported as not bound whenever the
    type cannot be built with no argument: with no scope of [stack]
    holding [T], and autobinding off or [T] not constructible,
    [get(T, none=True)] returns [None] and [get(T, none=False)] raises
    [NotBoundError(T)]. *)
Definition get_unbound_as_stated (classes : positive → option callable)
    (w : World) (self : addr) (stack : list addr) (T : tkey) : Prop :=
  (∀ s, s ∈ stack → holds w T s = false) →
  (∃ inj, injectors w !! self = Some inj ∧ autobind inj = false) ∨
  ¬ constructible classes T →
  (get classes self T true w).1 = Ret VNone ∧
  (get classes self T false w).1 = Exc (NotBoundError T).

(** A hosting application whose object 4 is a class with a constructor
    that needs an argument: it is callable, and calling it with no
    argument raises [TypeError]. *)
Definition classes_needing_argument (n : positive) : option callable :=
  match n with
  | 4%positive => Some (CallRaises TypeError)
  | _ => None
  end.

(** * Reasoning about the store *)

(** ** Running a computation *)

Lemma bind_M_Ret {A B} (m : M A) (k : A → M B) w a w' :
  m w = (Ret a, w') → bind_M m k w = k a w'.
Proof. unfold bind_M. by intros ->. Qed.

Lemma bind_M_Exc {A B} (m : M A) (k : A → M B) w e w' :
  m w = (Exc e, w') → bind_M m k w = (Exc e, w').
Proof. unfold bind_M. by intros ->. Qed.

Lemma load_injector_Some w self inj :
  injectors w !! self = Some inj → load_injector self w = (Ret inj, w).
Proof. unfold load_injector. by intros ->. Qed.

Lemma load_scope_Some w scope s :
  scopes w !! scope = Some s → load_scope scope w = (Ret s, w).
Proof. unfold load_scope. by intros ->. Qed.

Lemma get_scopes_stack_Some w self inj stack :
  injectors w !! self = Some inj → _scopes_stack inj = Some stack →
  get_scopes_stack self w = (Ret stack, w).
Proof.
  intros Hi Hs. unfold get_scopes_stack.
  rewrite (bind_M_Ret _ _ _ _ _ (load_injector_Some _ _ _ Hi)). by rewrite Hs.
Qed.

Lemma get_app_scope_Some w self inj app :
  injectors w !! self = Some inj → _app_scope inj = Some app →
  get_app_scope self w = (Ret app, w).
Proof.
  intros Hi Hs. unfold get_app_scope.
  rewrite (bind_M_Ret _ _ _ _ _ (load_injector_Some _ _ _ Hi)). by rewrite Hs.
Qed.

Lemma Scope_is_bound_live w scope type :
  is_Some (scopes w !! scope) →
  Scope_is_bound scope type w = (Ret (bound_in w type scope), w).
Proof.
  intros [s Hs]. unfold Scope_is_bound, bound_in.
  by rewrite (bind_M_Ret _ _ _ _ _ (load_scope_Some _ _ _ Hs)), Hs.
Qed.

Lemma Scope_is_factory_bound_live w scope type :
  is_Some (scopes w !! scope) →
  Scope_is_factory_bound scope type w = (Ret (factory_bound_in w type scope), w).
Proof.
  intros [s Hs]. unfold Scope_is_factory_bound, factory_bound_in.
  by rewrite (bind_M_Ret _ _ _ _ _ (load_scope_Some _ _ _ Hs)), Hs.
Qed.

Lemma is_bound_loop_live w stack type :
  stack_live w stack →
  is_bound_loop stack type w = (Ret (existsb (bound_in w type) stack), w).
Proof.
  induction 1 as [|a rest Ha _ IH]; [done|]. cbn.
  rewrite (bind_M_Ret _ _ _ _ _ (Scope_is_bound_live _ _ type Ha)).
  destruct (bound_in w type a); [done|]. by rewrite IH.
Qed.

Lemma is_bound_live w self stack app type :
  Injector_at w self stack app →
  is_bound self type w = (Ret (existsb (bound_in w type) stack), w).
Proof.
  intros [(inj & Hi & Hs & _) Hl]. unfold is_bound.
  rewrite (bind_M_Ret _ _ _ _ _ (get_scopes_stack_Some _ _ _ _ Hi Hs)).
  by apply is_bound_loop_live.
Qed.

Lemma is_factory_bound_loop_live w stack type :
  stack_live w stack →
  is_factory_bound_loop stack type w
  = (Ret (existsb (factory_bound_in w type) stack), w).
Proof.
  induction 1 as [|a rest Ha _ IH]; [done|]. cbn.
  rewrite (bind_M_Ret _ _ _ _ _ (Scope_is_factory_bound_live _ _ type Ha)).
  destruct (factory_bound_in w type a); [done|]. by rewrite IH.
Qed.

Lemma is_factory_bound_live w self stack app type :
  Injector_at w self stack app →
  is_factory_bound self type w
  = (Ret (existsb (factory_bound_in w type) stack), w).
Proof.
  intros [(inj & Hi & Hs & _) Hl]. unfold is_factory_bound.
  rewrite (bind_M_Ret _ _ _ _ _ (get_scopes_stack_Some _ _ _ _ Hi Hs)).
  by apply is_factory_bound_loop_live.
Qed.

Lemma existsb_holds_false w type stack :
  (∀ a, a ∈ stack → holds w type a = false) →
  existsb (bound_in w type) stack = false.
Proof.
  intros H. apply not_true_is_false. intros (a & Ha & Hb)%existsb_exists.
  apply list_elem_of_In, H in Ha. unfold holds in Ha.
  by rewrite Hb in Ha.
Qed.

(** ** Relations kept by computations *)

Section preserved.
Context (R : relation World) `{!PreOrder R}.

Lemma preserved_pure {A} (m : M A) : (∀ w, (m w).2 = w) → preserved R m.
Proof. intros H w. by rewrite H. Qed.

Lemma preserved_ret {A} (a : A) : preserved R (ret a).
Proof. by apply preserved_pure. Qed.

Lemma preserved_raise {A} e : preserved R (@raise A e).
Proof. by apply preserved_pure. Qed.

Lemma preserved_bind {A B} (m : M A) (k : A → M B) :
  preserved R m → (∀ a, preserved R (k a)) → preserved R (bind_M m k).
Proof.
  intros Hm Hk w. unfold bind_M. specialize (Hm w).
  destruct (m w) as [[a|e] w1]; cbn in *; [|done].
  by etrans; [|apply Hk].
Qed.

Lemma preserved_try_except {A} (m : M A) (handler : pyexc → M A) :
  preserved R m → (∀ e, preserved R (handler e)) →
  preserved R (try_except m handler).
Proof.
  intros Hm Hk w. unfold try_except. specialize (Hm w).
  destruct (m w) as [[a|e] w1]; cbn in *; [done|].
  by etrans; [|apply Hk].
Qed.

Lemma preserved_load_injector self : preserved R (load_injector self).
Proof.
  apply preserved_pure. intros w. unfold load_injector. by case_match.
Qed.

Lemma preserved_load_scope scope : preserved R (load_scope scope).
Proof.
  apply preserved_pure. intros w. unfold load_scope. by case_match.
Qed.
End preserved.

(** Splits a goal [preserved R m] along the structure of [m], down to
    the calls that need a lemma of their own, which are looked up in the
    hint database [preserved]. *)
Create HintDb preserved discriminated.

Ltac preserved_step :=
  lazymatch goal with
  | |- preserved _ (bind_M _ _) => apply preserved_bind; [apply _ | | intro]
  | |- preserved _ (try_except _ _) =>
      apply preserved_try_except; [apply _ | | intro]
  | |- preserved _ (ret _) => apply preserved_ret, _
  | |- preserved _ (raise _) => apply preserved_raise, _
  | |- preserved _ (load_injector _) => apply preserved_load_injector, _
  | |- preserved _ (load_scope _) => apply preserved_load_scope, _
  | |- preserved _ (if ?b then _ else _) => destruct b
  | |- preserved _ (match ?x with _ => _ end) => destruct x
  end.
Ltac preserved_auto :=
  repeat first [ preserved_step | solve [ eauto with preserved ] ].

#[global] Instance extends_preorder : PreOrder extends.
Proof.
  split; [by split|].
  intros w1 w2 w3 [??] [??]. split; by etrans.
Qed.

#[global] Instance frame_preorder T : PreOrder (frame T).
Proof.
  split.
  - intros w. split; [done|]. intros a s Hs. by exists s.
  - intros w1 w2 w3 [Hi1 Hs1] [Hi2 Hs2]. split; [by etrans|].
    intros a s Hs. destruct (Hs1 _ _ Hs) as (s2 & H2 & E2).
    destruct (Hs2 _ _ H2) as (s3 & H3 & E3). exists s3. split; [done|congruence].
Qed.

#[global] Instance same_slot_preorder : PreOrder same_slot.
Proof. split; [done|]. unfold same_slot. intros ???; congruence. Qed.

Lemma extends_frame T w w' : extends w w' → frame T w w'.
Proof.
  intros [Hi Hs]. split; [done|]. intros a s Ha. exists s.
  split; [|done]. by eapply lookup_weaken.
Qed.

Lemma preserved_extends_frame T {A} (m : M A) :
  preserved extends m → preserved (frame T) m.
Proof. intros H w. apply extends_frame, H. Qed.

Lemma frame_Injector_at T w w' self stack app :
  frame T w w' → Injector_at w self stack app → Injector_at w' self stack app.
Proof.
  intros [Hi Hs] [(inj & Hinj & ? & ?) Hl]. split.
  - exists inj. split; [|done]. by eapply lookup_weaken.
  - eapply Forall_impl; [done|]. intros a [s Ha].
    destruct (Hs _ _ Ha) as (s' & -> & _). by eexists.
Qed.

Lemma frame_binds T w w' scope x :
  frame T w w' → binds w scope T x → binds w' scope T x.
Proof.
  intros [_ Hs] (s & Ha & Hb). destruct (Hs _ _ Ha) as (s' & ? & E).
  exists s'. split; [done|congruence].
Qed.

Lemma extends_holds w w' type scope :
  extends w w' → is_Some (scopes w !! scope) →
  holds w' type scope = holds w type scope.
Proof.
  intros [_ Hs] [s Ha]. unfold holds, bound_in, factory_bound_in.
  by rewrite Ha, (lookup_weaken _ _ _ _ Ha Hs).
Qed.

(** *** What each method does to the bindings of another key *)

Section frame.
Context (T : tkey).

Lemma frame_store_scope w scope s s' :
  scopes w !! scope = Some s → _bindings s' !! T = _bindings s !! T →
  frame T w (store_scope scope s' w).2.
Proof.
  intros Hs E. split; [done|]. intros a s0 Ha. cbn.
  destruct (decide (scope = a)) as [->|].
  - rewrite lookup_insert_eq. exists s'. split; [done|congruence].
  - rewrite lookup_insert_ne by done. by exists s0.
Qed.

Lemma frame_Scope_bind scope type to :
  type ≠ T → preserved (frame T) (Scope_bind scope type to).
Proof.
  intros Hne w. unfold Scope_bind, bind_M, load_scope.
  destruct (scopes w !! scope) as [s|] eqn:Hs; [|done].
  apply (frame_store_scope _ _ s); [done|]. cbn. by rewrite lookup_insert_ne.
Qed.

Lemma frame_Scope_unbind scope type :
  type ≠ T → preserved (frame T) (Scope_unbind scope type).
Proof.
  intros Hne w. unfold Scope_unbind, bind_M, load_scope.
  destruct (scopes w !! scope) as [s|] eqn:Hs; [|done].
  apply (frame_store_scope _ _ s); [done|]. cbn. by rewrite lookup_delete_ne.
Qed.

Lemma frame_Scope_bind_factory scope type factory :
  preserved (frame T) (Scope_bind_factory scope type factory).
Proof.
  intros w. unfold Scope_bind_factory, bind_M, load_scope.
  destruct (scopes w !! scope) as [s|] eqn:Hs; [|done].
  by apply (frame_store_scope _ _ s).
Qed.

Lemma frame_Scope_unbind_factory scope type :
  preserved (frame T) (Scope_unbind_factory scope type).
Proof.
  intros w. unfold Scope_unbind_factory, bind_M, load_scope.
  destruct (scopes w !! scope) as [s|] eqn:Hs; [|done].
  by apply (frame_store_scope _ _ s).
Qed.

Lemma frame_Scope_is_bound scope type :
  preserved (frame T) (Scope_is_bound scope type).
Proof. unfold Scope_is_bound. preserved_auto. Qed.

Lemma frame_Scope_is_factory_bound scope type :
  preserved (frame T) (Scope_is_factory_bound scope type).
Proof. unfold Scope_is_factory_bound. preserved_auto. Qed.

Lemma frame_get_scopes_stack self : preserved (frame T) (get_scopes_stack self).
Proof. unfold get_scopes_stack. preserved_auto. Qed.

Lemma frame_get_app_scope self : preserved (frame T) (get_app_scope self).
Proof. unfold get_app_scope. preserved_auto. Qed.

Lemma frame_get_scopes self : preserved (frame T) (get_scopes self).
Proof. unfold get_scopes. preserved_auto. Qed.

Hint Resolve frame_Scope_bind frame_Scope_unbind frame_Scope_bind_factory
  frame_Scope_unbind_factory frame_Scope_is_bound
  frame_Scope_is_factory_bound frame_get_scopes_stack frame_get_app_scope
  frame_get_scopes : preserved.

Lemma frame_is_bound self type : preserved (frame T) (is_bound self type).
Proof.
  unfold is_bound. preserved_step; [preserved_auto|].
  induction a; cbn; preserved_auto.
Qed.

Lemma frame_is_factory_bound self type :
  preserved (frame T) (is_factory_bound self type).
Proof.
  unfold is_factory_bound. preserved_step; [preserved_auto|].
  induction a; cbn; preserved_auto.
Qed.

Lemma frame_unbind self type : type ≠ T → preserved (frame T) (unbind self type).
Proof.
  intros Hne. unfold unbind. preserved_step; [preserved_auto|].
  induction a; cbn; preserved_auto.
Qed.

Lemma frame_unbind_factory self type :
  preserved (frame T) (unbind_factory self type).
Proof.
  unfold unbind_factory. preserved_step; [preserved_auto|].
  induction a; cbn; preserved_auto.
Qed.

Hint Resolve frame_is_bound frame_is_factory_bound frame_unbind
  frame_unbind_factory : preserved.

Lemma frame_bind self type to : type ≠ T → preserved (frame T) (bind self type to).
Proof. intros Hne. unfold bind. preserved_auto. Qed.

Lemma frame_bind_factory self type factory :
  preserved (frame T) (bind_factory self type factory).
Proof. unfold bind_factory. preserved_auto. Qed.

Lemma frame_is_scope_bound self type :
  preserved (frame T) (is_scope_bound self type).
Proof. unfold is_scope_bound. preserved_auto. Qed.

Lemma frame_same_objects w w' :
  injectors w' = injectors w → scopes w' = scopes w → frame T w w'.
Proof.
  intros Hi Hs. split; [by rewrite Hi|]. intros a s Ha. exists s.
  by rewrite Hs.
Qed.

Lemma frame_cls_register injector : preserved (frame T) (cls_register injector).
Proof.
  intros w. unfold cls_register. case_match; by apply frame_same_objects.
Qed.

Lemma frame_cls_unregister injector :
  preserved (frame T) (cls_unregister injector).
Proof.
  intros w. unfold cls_unregister.
  repeat case_match; by apply frame_same_objects.
Qed.

Lemma frame_cls_is_registered injector :
  preserved (frame T) (cls_is_registered injector).
Proof.
  intros w. unfold cls_is_registered. case_match; by apply frame_same_objects.
Qed.
End frame.

#[global] Hint Resolve frame_Scope_bind frame_Scope_unbind
  frame_Scope_bind_factory frame_Scope_unbind_factory frame_Scope_is_bound
  frame_Scope_is_factory_bound frame_get_scopes_stack frame_get_app_scope
  frame_get_scopes frame_is_bound frame_is_factory_bound frame_unbind
  frame_unbind_factory frame_bind frame_bind_factory frame_is_scope_bound
  frame_cls_register frame_cls_unregister frame_cls_is_registered : preserved.

(** *** The registration slot is touched by registration only *)

Section same_slot.
Lemma slot_store_scope scope s : preserved same_slot (store_scope scope s).
Proof. done. Qed.

Lemma slot_store_injector self inj :
  preserved same_slot (store_injector self inj).
Proof. done. Qed.

Lemma slot_new_scope c : preserved same_slot (new_scope c).
Proof. done. Qed.

Lemma slot_new_injector_object : preserved same_slot new_injector_object.
Proof. done. Qed.

Lemma slot_configure_stdout_handler :
  preserved same_slot configure_stdout_handler.
Proof. done. Qed.

Hint Resolve slot_store_scope slot_store_injector slot_new_scope
  slot_new_injector_object slot_configure_stdout_handler : preserved.

Lemma slot_Scope_bind scope type to :
  preserved same_slot (Scope_bind scope type to).
Proof. unfold Scope_bind. preserved_auto. Qed.

Lemma slot_Scope_unbind scope type :
  preserved same_slot (Scope_unbind scope type).
Proof. unfold Scope_unbind. preserved_auto. Qed.

Lemma slot_Scope_is_bound scope type :
  preserved same_slot (Scope_is_bound scope type).
Proof. unfold Scope_is_bound. preserved_auto. Qed.

Lemma slot_get_scopes_stack self : preserved same_slot (get_scopes_stack self).
Proof. unfold get_scopes_stack. preserved_auto. Qed.

Lemma slot_set_scopes_stack self stack :
  preserved same_slot (set_scopes_stack self stack).
Proof. unfold set_scopes_stack. preserved_auto. Qed.

Lemma slot_get_scopes self : preserved same_slot (get_scopes self).
Proof. unfold get_scopes. preserved_auto. Qed.

Lemma slot_set_scopes self table : preserved same_slot (set_scopes self table).
Proof. unfold set_scopes. preserved_auto. Qed.

Lemma slot_get_app_scope self : preserved same_slot (get_app_scope self).
Proof. unfold get_app_scope. preserved_auto. Qed.

Lemma slot_set_app_scope self scope :
  preserved same_slot (set_app_scope self scope).
Proof. unfold set_app_scope. preserved_auto. Qed.

Hint Resolve slot_Scope_bind slot_Scope_unbind slot_Scope_is_bound
  slot_get_scopes_stack slot_set_scopes_stack slot_get_scopes
  slot_set_scopes slot_get_app_scope slot_set_app_scope : preserved.

Lemma slot_is_bound self type : preserved same_slot (is_bound self type).
Proof.
  unfold is_bound. preserved_step; [preserved_auto|].
  induction a; cbn; preserved_auto.
Qed.

Lemma slot_unbind self type : preserved same_slot (unbind self type).
Proof.
  unfold unbind. preserved_step; [preserved_auto|].
  induction a; cbn; preserved_auto.
Qed.

Hint Resolve slot_is_bound slot_unbind : preserved.

Lemma slot_bind self type to : preserved same_slot (bind self type to).
Proof. unfold bind. preserved_auto. Qed.

Hint Resolve slot_bind : preserved.

Lemma slot_unbind_scope self scope_type :
  preserved same_slot (unbind_scope self scope_type).
Proof. unfold unbind_scope. preserved_auto. Qed.

Hint Resolve slot_unbind_scope : preserved.

Lemma slot_bind_scope self scope_type scope :
  preserved same_slot (bind_scope self scope_type scope).
Proof. unfold bind_scope. preserved_auto. Qed.

Hint Resolve slot_bind_scope : preserved.

Lemma slot__init self : preserved same_slot (_init self).
Proof. unfold _init, _default_config. preserved_auto. Qed.

Hint Resolve slot__init : preserved.

Lemma slot_clear self : preserved same_slot (clear self).
Proof. unfold clear. preserved_auto. Qed.

Lemma slot_Injector_new ab echo : preserved same_slot (Injector_new ab echo).
Proof. unfold Injector_new, __init__. preserved_auto. Qed.
End same_slot.

(** ** The store [_init] builds *)

Ltac unfold_methods :=
  unfold _init, _default_config, bind_scope, unbind_scope, bind, is_bound,
    unbind, set_scopes, set_scopes_stack, set_app_scope, get_app_scope,
    get_scopes, get_scopes_stack, Scope_bind, Scope_unbind, Scope_is_bound,
    new_scope, load_injector, store_injector, load_scope, store_scope,
    bind_M, ret, raise, with_scopes, with_injectors, empty_scope.

(** Runs the methods on a store whose lookups can be decided. *)
Ltac run_methods :=
  repeat first
    [ rewrite lookup_insert_eq
    | rewrite lookup_insert_ne by (done || congruence)
    | rewrite lookup_empty
    | rewrite insert_insert_eq
    | progress cbn -[lookup insert delete dom fresh union singleton empty]
    | progress unfold_methods ].

(** Names the address the next [new_scope] picks, with what is known
    about it. *)
Tactic Notation "name_fresh" ident(a) ident(H) :=
  match goal with
  | |- context [fresh (dom ?m)] =>
      pose proof (is_fresh (dom m)) as H;
      apply not_elem_of_dom in H;
      generalize dependent (fresh (dom m)); intros a H
  end.

Lemma _init_spec w self inj :
  injectors w !! self = Some inj →
  ∃ app thr req, new_scopes w app thr req ∧
    _init self w = (Ret (), default_world w self (autobind inj) app thr req).
Proof.
  intros Hs. destruct w as [slot injs scps n h]. cbn in Hs.
  run_methods. rewrite Hs. run_methods.
  name_fresh app Happ. run_methods.
  name_fresh thr Hthr.
  rewrite lookup_insert_None in Hthr. destruct Hthr as [Hthr ?].
  run_methods.
  name_fresh req Hreq.
  rewrite !lookup_insert_None in Hreq. destruct_and!.
  run_methods.
  exists app, thr, req. split; [done|].
  unfold default_world, default_app_scope, default_injector, empty_scope.
  cbn. do 2 f_equal. apply map_eq. intros i.
  rewrite !lookup_insert. repeat case_decide; congruence.
Qed.

Lemma clear_spec w self inj :
  injectors w !! self = Some inj →
  ∃ app thr req, new_scopes w app thr req ∧
    clear self w = (Ret (), default_world w self (autobind inj) app thr req).
Proof.
  intros Hs. destruct w as [slot injs scps n h]. cbn in Hs.
  unfold clear, set_app_scope, set_scopes, set_scopes_stack.
  unfold bind_M at 1 2, load_injector, store_injector, with_injectors.
  cbn. rewrite Hs. cbn.
  unfold bind_M at 1 2. cbn. rewrite lookup_insert_eq. cbn.
  unfold bind_M at 1 2. cbn. rewrite lookup_insert_eq. cbn.
  rewrite !insert_insert_eq.
  match goal with
  | |- context [_init self ?w1] =>
      destruct (_init_spec w1 self (mkInjector (autobind inj) None None None))
        as (app & thr & req & Hn & ->); [cbn; by rewrite lookup_insert_eq|]
  end.
  exists app, thr, req. split; [done|].
  unfold default_world. cbn. by rewrite insert_insert_eq.
Qed.

Lemma Injector_new_spec w ab echo :
  ∃ self app thr req,
    injectors w !! self = None ∧ new_scopes w app thr req ∧
    Injector_new ab echo w
    = (Ret self,
       default_world (with_stdout_handler (echo || stdout_handler w) w)
         self ab app thr req).
Proof.
  destruct w as [slot injs scps n h].
  unfold Injector_new, new_injector_object, __init__.
  unfold bind_M at 1. cbn -[fresh dom].
  pose proof (is_fresh (dom injs)) as Hself.
  apply not_elem_of_dom in Hself.
  generalize dependent (fresh (dom injs)). intros self Hself.
  unfold bind_M at 1 2 3, load_injector, store_injector, with_injectors. cbn.
  rewrite lookup_insert_eq. cbn. rewrite insert_insert_eq.
  unfold bind_M at 1, configure_stdout_handler, with_stdout_handler.
  destruct echo; cbn;
    match goal with
    | |- context [_init self ?w1] =>
        destruct (_init_spec w1 self (mkInjector ab None None None))
          as (app & thr & req & Hn & E); [cbn; by rewrite lookup_insert_eq|]
    end;
    exists self, app, thr, req; (split; [done|]); (split; [done|]);
    unfold bind_M; rewrite E; cbn; unfold default_world; cbn;
    by rewrite insert_insert_eq.
Qed.

Lemma default_world_scopes_extend w self ab app thr req :
  new_scopes w app thr req →
  scopes w ⊆ scopes (default_world w self ab app thr req).
Proof.
  intros (Ha & Ht & Hr & ? & ? & ?). cbn.
  etrans; [apply (insert_subseteq _ app); done|].
  etrans; [apply (insert_subseteq _ thr); by rewrite lookup_insert_ne|].
  apply insert_subseteq. by rewrite !lookup_insert_ne.
Qed.

Lemma default_world_extends w self ab app thr req :
  injectors w !! self = None → new_scopes w app thr req →
  extends w (default_world w self ab app thr req).
Proof.
  intros Hs Hn. split; [by apply insert_subseteq|].
  by apply default_world_scopes_extend.
Qed.

Lemma Injector_new_extends ab echo : preserved extends (Injector_new ab echo).
Proof.
  intros w. destruct (Injector_new_spec w ab echo)
    as (self & app & thr & req & Hs & Hn & ->). cbn [snd].
  etrans; [|by apply default_world_extends]. done.
Qed.

Lemma new_scope_extends c : preserved extends (new_scope c).
Proof.
  intros w. split; cbn; [done|].
  apply insert_subseteq, not_elem_of_dom, is_fresh.
Qed.

(** ** Resolution *)

Section resolution_facts.
Context (classes : positive → option callable).

(** A call builds new objects at most. *)
Lemma call_extends type : preserved extends (call classes type).
Proof.
  assert (∀ c, preserved extends
                 (let! a := new_scope c in ret (VScope a))) as Hscope.
  { intros c. preserved_step; [apply new_scope_extends|preserved_auto]. }
  destruct type as [| | | |n]; cbn; try apply Hscope.
  - preserved_step; [apply Injector_new_extends|preserved_auto].
  - destruct (classes n) as [[|v|e]|]; preserved_auto. by intros w.
Qed.


Lemma call_Ret_callable type w v w' :
  call classes type w = (Ret v, w') → is_callable classes type = true.
Proof.
  destruct type as [| | | |n]; try done. cbn.
  destruct (classes n) as [[|x|x]|]; try done; by intros [=].
Qed.

Lemma Scope_get_bound w scope type x :
  binds w scope type x → Scope_get classes scope type w = (Ret x, w).
Proof.
  intros (s & Hs & Hb). unfold Scope_get.
  rewrite (bind_M_Ret _ _ _ _ _ (load_scope_Some _ _ _ Hs)). by rewrite Hb.
Qed.

Lemma frame_Scope_get T scope type :
  type ≠ T → preserved (frame T) (Scope_get classes scope type).
Proof.
  intros Hne. unfold Scope_get. preserved_auto.
  apply preserved_extends_frame, call_extends.
Qed.

Lemma get_loop_none w stack type :
  stack_live w stack → (∀ a, a ∈ stack → holds w type a = false) →
  get_loop classes stack type w = (Ret None, w).
Proof.
  induction 1 as [|a rest Ha _ IH]; intros Hn; [done|]. cbn.
  pose proof (Hn a ltac:(left)) as Hh. unfold holds in Hh.
  apply orb_false_elim in Hh as [Hb Hf].
  rewrite (bind_M_Ret _ _ _ _ _ (Scope_is_bound_live _ _ type Ha)), Hb.
  rewrite (bind_M_Ret _ _ _ _ _ (Scope_is_factory_bound_live _ _ type Ha)), Hf.
  apply IH. intros b Hb'. apply Hn. by right.
Qed.

(** The loop stops at the first scope that holds the type. *)
Lemma get_loop_first w pre scope post type :
  stack_live w (pre ++ scope :: post) →
  (∀ a, a ∈ pre → holds w type a = false) → holds w type scope = true →
  get_loop classes (pre ++ scope :: post) type w
  = (let! inst := Scope_get classes scope type in ret (Some inst)) w.
Proof.
  induction pre as [|a pre IH]; intros Hl Hn Hh; cbn.
  - apply Forall_cons in Hl as [Ha _]. unfold holds in Hh.
    rewrite (bind_M_Ret _ _ _ _ _ (Scope_is_bound_live _ _ type Ha)).
    destruct (bound_in w type scope); cbn in *; [done|].
    by rewrite (bind_M_Ret _ _ _ _ _
                  (Scope_is_factory_bound_live _ _ type Ha)), Hh.
  - apply Forall_cons in Hl as [Ha Hl].
    pose proof (Hn a ltac:(left)) as Hh'. unfold holds in Hh'.
    apply orb_false_elim in Hh' as [Hb Hf].
    rewrite (bind_M_Ret _ _ _ _ _ (Scope_is_bound_live _ _ type Ha)), Hb.
    rewrite (bind_M_Ret _ _ _ _ _
               (Scope_is_factory_bound_live _ _ type Ha)), Hf.
    apply IH; [done| |done]. intros b Hb'. apply Hn. by right.
Qed.

Lemma get_found w self pre scope post app type none :
  Injector_at w self (pre ++ scope :: post) app →
  (∀ a, a ∈ pre → holds w type a = false) → holds w type scope = true →
  get classes self type none w = Scope_get classes scope type w.
Proof.
  intros [(inj & Hi & Hs & _) Hl] Hn Hh. unfold get.
  rewrite (bind_M_Ret _ _ _ _ _ (get_scopes_stack_Some _ _ _ _ Hi Hs)).
  unfold bind_M at 1. rewrite (get_loop_first _ _ _ _ _ Hl Hn Hh).
  unfold bind_M. by destruct (Scope_get classes scope type w) as [[x|e] w'].
Qed.

Lemma binds_holds w scope type x : binds w scope type x → holds w type scope = true.
Proof.
  intros (s & Hs & Hb). unfold holds, bound_in. rewrite Hs, Hb.
  by rewrite bool_decide_true.
Qed.

(** A binding in the scope that heads the stack answers [get]. *)
Lemma get_bound_head w self app rest type x none :
  Injector_ok w self app rest → binds w app type x →
  get classes self type none w = (Ret x, w).
Proof.
  intros Hok Hb.
  rewrite (get_found w self [] app rest app type none Hok).
  - by apply Scope_get_bound.
  - by intros a ?%elem_of_nil.
  - by eapply binds_holds.
Qed.

(** With no scope holding the type, [get] reaches the autobinding
    test. *)
Lemma get_not_found w self inj stack type none :
  injectors w !! self = Some inj → _scopes_stack inj = Some stack →
  stack_live w stack → (∀ a, a ∈ stack → holds w type a = false) →
  get classes self type none w
  = (if autobind inj && is_callable classes type then
       let! inst := try_except (call classes type)
                      (λ e, raise (AutobindingFailed type e)) in
       bind self type inst;;
       ret inst
     else if none then ret VNone
     else raise (NotBoundError type)) w.
Proof.
  intros Hi Hs Hl Hn. unfold get.
  rewrite (bind_M_Ret _ _ _ _ _ (get_scopes_stack_Some _ _ _ _ Hi Hs)).
  rewrite (bind_M_Ret _ _ _ _ _ (get_loop_none _ _ _ Hl Hn)).
  by rewrite (bind_M_Ret _ _ _ _ _ (load_injector_Some _ _ _ Hi)).
Qed.

Lemma frame_get T self type none :
  type ≠ T → preserved (frame T) (get classes self type none).
Proof.
  intros Hne. unfold get. preserved_step; [preserved_auto|].
  preserved_step.
  { induction a; cbn; preserved_auto. by apply frame_Scope_get. }
  preserved_auto. apply preserved_extends_frame, call_extends.
Qed.
End resolution_facts.

(** ** [bind] on a live injector *)

Lemma Scope_bind_live w scope s type to :
  scopes w !! scope = Some s →
  Scope_bind scope type to w
  = (Ret (),
     with_scopes
       (<[scope := mkScope (scope_cls s) (<[type := to]> (_bindings s))
                     (_factories s)]> (scopes w)) w).
Proof.
  intros Hs. unfold Scope_bind.
  by rewrite (bind_M_Ret _ _ _ _ _ (load_scope_Some _ _ _ Hs)).
Qed.

Lemma unbind_loop_live w stack type :
  stack_live w stack →
  ∃ w', unbind_loop stack type w = (Ret (), w') ∧
    injectors w' = injectors w ∧
    ∀ a, is_Some (scopes w !! a) → is_Some (scopes w' !! a).
Proof.
  induction 1 as [|a rest Ha _ IH]; [by exists w|]. cbn.
  rewrite (bind_M_Ret _ _ _ _ _ (Scope_is_bound_live _ _ type Ha)).
  destruct (bound_in w type a); [|done].
  destruct Ha as [s Hs]. unfold Scope_unbind.
  rewrite (bind_M_Ret _ _ _ _ _ (load_scope_Some _ _ _ Hs)).
  eexists. split; [done|]. split; [done|]. intros b Hb. cbn.
  destruct (decide (a = b)) as [->|].
  - by rewrite lookup_insert_eq.
  - by rewrite lookup_insert_ne.
Qed.

(** [bind] returns, keeps the injector as it is, and leaves the type
    bound to the value in the application scope. *)
Lemma bind_live w self stack app type to :
  Injector_at w self stack app → is_Some (scopes w !! app) →
  ∃ w1, bind self type to w = (Ret (), w1) ∧
    Injector_at w1 self stack app ∧ is_Some (scopes w1 !! app) ∧
    binds w1 app type to.
Proof.
  intros Hat Happ. pose proof Hat as [(inj & Hi & Hs & Ha) Hl]. unfold bind.
  rewrite (bind_M_Ret _ _ _ _ _ (is_bound_live _ _ _ _ type Hat)).
  assert (∃ w', (if existsb (bound_in w type) stack
                 then unbind self type else ret ()) w = (Ret (), w') ∧
            injectors w' = injectors w ∧
            ∀ a, is_Some (scopes w !! a) → is_Some (scopes w' !! a))
    as (w' & Hun & Ei & Hlive).
  { destruct (existsb _ _); [|by exists w]. unfold unbind.
    rewrite (bind_M_Ret _ _ _ _ _ (get_scopes_stack_Some _ _ _ _ Hi Hs)).
    by apply unbind_loop_live. }
  rewrite (bind_M_Ret _ _ _ _ _ Hun).
  assert (injectors w' !! self = Some inj) as Hi' by by rewrite Ei.
  rewrite (bind_M_Ret _ _ _ _ _ (get_app_scope_Some _ _ _ _ Hi' Ha)).
  destruct (Hlive _ Happ) as [s Hs'].
  rewrite (Scope_bind_live _ _ _ _ _ Hs'). eexists. split; [done|].
  assert (∀ a, is_Some (scopes w !! a) →
            is_Some (<[app := mkScope (scope_cls s) (<[type := to]> (_bindings s))
                                (_factories s)]> (scopes w') !! a)) as Hlive'.
  { intros a Hb%Hlive. destruct (decide (app = a)) as [->|].
    - by rewrite lookup_insert_eq.
    - by rewrite lookup_insert_ne. }
  repeat split.
  - by exists inj.
  - eapply Forall_impl; [done|]. apply Hlive'.
  - by apply Hlive'.
  - eexists. split; [apply lookup_insert_eq|]. cbn. apply lookup_insert_eq.
Qed.

(** When no scope of the stack binds the type, [bind] writes the
    application scope and nothing else. *)
Lemma bind_unbound w self stack app s type to :
  Injector_at w self stack app → scopes w !! app = Some s →
  existsb (bound_in w type) stack = false →
  bind self type to w
  = (Ret (),
     with_scopes
       (<[app := mkScope (scope_cls s) (<[type := to]> (_bindings s))
                   (_factories s)]> (scopes w)) w).
Proof.
  intros Hat Happ Hb. pose proof Hat as [(inj & Hi & Hs & Ha) Hl]. unfold bind.
  rewrite (bind_M_Ret _ _ _ _ _ (is_bound_live _ _ _ _ type Hat)), Hb.
  unfold bind_M at 1. cbn.
  rewrite (bind_M_Ret _ _ _ _ _ (get_app_scope_Some _ _ _ _ Hi Ha)).
  by apply Scope_bind_live.
Qed.

(** ** The default configuration is well formed *)

Lemma default_world_lookup_app w self ab app thr req :
  new_scopes w app thr req →
  scopes (default_world w self ab app thr req) !! app
  = Some (default_app_scope self app thr req).
Proof.
  intros (_ & _ & _ & ? & ? & ?). cbn.
  rewrite !lookup_insert_ne by done. apply lookup_insert_eq.
Qed.

Lemma default_world_lookup_thr w self ab app thr req :
  new_scopes w app thr req →
  scopes (default_world w self ab app thr req) !! thr
  = Some (empty_scope ThreadScope).
Proof.
  intros (_ & _ & _ & ? & ? & ?). cbn.
  rewrite lookup_insert_ne by done. apply lookup_insert_eq.
Qed.

Lemma default_world_lookup_req w self ab app thr req :
  scopes (default_world w self ab app thr req) !! req
  = Some (empty_scope RequestScope).
Proof. cbn. apply lookup_insert_eq. Qed.

(** [_init] leaves the application scope at the head of the stack. *)
Lemma default_world_ok w self ab app thr req :
  new_scopes w app thr req →
  Injector_ok (default_world w self ab app thr req) self app [thr; req].
Proof.
  intros Hn. split.
  - eexists. split; [apply lookup_insert_eq|done].
  - repeat apply Forall_cons_2; [| | |done].
    + by rewrite default_world_lookup_app.
    + by rewrite default_world_lookup_thr.
    + by rewrite default_world_lookup_req.
Qed.

(** * Binding and resolution *)

Section binding.
Context (classes : positive → option callable).

(** A call that leaves the binding of [T] alone keeps an injector whose
    application scope heads the stack and binds [T] in that state. *)
Lemma run_op_leaves_binding w self app rest T x o :
  Injector_ok w self app rest → binds w app T x →
  leaves_binding T o = true →
  frame T w (run_op classes self o w).
Proof.
  intros Hok Hb Ho.
  destruct o; try discriminate Ho; unfold run_op;
    try (apply bool_decide_eq_true in Ho).
  - by apply frame_bind.
  - by apply frame_unbind.
  - destruct (decide (type = T)) as [->|Hne].
    + by rewrite (get_bound_head classes _ _ _ _ _ _ none Hok Hb).
    + by apply frame_get.
  - apply frame_is_bound.
  - apply frame_is_bound.
  - apply frame_bind_factory.
  - apply frame_unbind_factory.
  - apply frame_is_factory_bound.
  - apply frame_is_scope_bound.
  - apply frame_cls_register.
  - apply frame_cls_unregister.
  - apply frame_cls_is_registered.
Qed.

Lemma run_ops_leave_binding w self app rest T x ops :
  Injector_ok w self app rest → binds w app T x →
  Forall (λ o, leaves_binding T o = true) ops →
  Injector_ok (run_ops classes self ops w) self app rest ∧
  binds (run_ops classes self ops w) app T x.
Proof.
  intros Hok Hb Hops. revert w Hok Hb.
  induction Hops as [|o ops Ho _ IH]; intros w Hok Hb; [done|]. cbn.
  pose proof (run_op_leaves_binding _ _ _ _ _ _ _ Hok Hb Ho) as Hf.
  apply IH.
  - by eapply frame_Injector_at.
  - by eapply frame_binds.
Qed.

(** On an injector whose application scope heads the scope stack
    (the shape the constructor gives it), [bind(T, to=x)] returns, and
    after it [get(T)] returns [x] itself, with either value of [none],
    and keeps doing so after any sequence of calls on the injector that
    neither rebind nor unbind [T] ([bind] and [unbind] of other keys,
    [get] of any key, the factory methods, the queries, registration);
    a second [bind(T, to=y)] replaces the binding, so that [get(T)]
    then returns [y]. *)
Theorem bind_then_get w self app rest T x :
  Injector_ok w self app rest →
  ∃ w1, bind self T x w = (Ret (), w1) ∧
    (∀ ops none, Forall (λ o, leaves_binding T o = true) ops →
       get classes self T none (run_ops classes self ops w1)
       = (Ret x, run_ops classes self ops w1)) ∧
    (∀ y, ∃ w2, bind self T y w1 = (Ret (), w2) ∧
       ∀ none, get classes self T none w2 = (Ret y, w2)).
Proof.
  intros Hok.
  assert (is_Some (scopes w !! app)) as Happ.
  { destruct Hok as [_ Hl]. by apply Forall_cons in Hl as [? _]. }
  destruct (bind_live w self _ app T x Hok Happ)
    as (w1 & E1 & Hok1 & Happ1 & Hb1).
  exists w1. split; [done|]. split.
  - intros ops none Hops.
    destruct (run_ops_leave_binding _ _ _ _ _ _ _ Hok1 Hb1 Hops) as [Hok2 Hb2].
    by eapply get_bound_head.
  - intros y. destruct (bind_live w1 self _ app T y Hok1 Happ1)
      as (w2 & E2 & Hok2 & _ & Hb2).
    exists w2. split; [done|]. intros none. by eapply get_bound_head.
Qed.
End binding.

Lemma Injector_at_store_scope w self stack app scope s :
  Injector_at w self stack app →
  Injector_at (with_scopes (<[scope := s]> (scopes w)) w) self stack app.
Proof.
  intros [Hi Hl]. split; [done|]. eapply Forall_impl; [done|].
  intros a Ha. cbn. destruct (decide (scope = a)) as [->|].
  - by rewrite lookup_insert_eq.
  - by rewrite lookup_insert_ne.
Qed.

Lemma extends_Injector_at w w' self stack app :
  extends w w' → Injector_at w self stack app → Injector_at w' self stack app.
Proof. intros H. apply (frame_Injector_at K_Injector), extends_frame, H. Qed.

Section resolution_properties.
Context (classes : positive → option callable).


(** C3, as amended.  When no scope of the stack holds [T], as a binding
    or as a factory binding, and autobinding is off or [T] is not
    callable, [get(T, none=True)] returns [None] and
    [get(T, none=False)] raises [NotBoundError(T)]; neither changes the
    store. *)
Theorem get_unbound w self inj stack T :
  injectors w !! self = Some inj → _scopes_stack inj = Some stack →
  stack_live w stack →
  (∀ s, s ∈ stack → holds w T s = false) →
  autobind inj = false ∨ is_callable classes T = false →
  get classes self T true w = (Ret VNone, w) ∧
  get classes self T false w = (Exc (NotBoundError T), w).
Proof.
  intros Hi Hs Hl Hn Hab.
  assert (autobind inj && is_callable classes T = false) as E.
  { destruct Hab as [-> | ->]; [done|apply andb_false_r]. }
  by rewrite !(get_not_found classes _ _ _ _ _ _ Hi Hs Hl Hn), E.
Qed.




(** When no scope of the stack holds [C], autobinding is on and
    calling [C] returns an instance, [get(C)] returns that instance
    after binding it in the application scope, and nothing else of the
    store the call left is changed; if the application scope is in the
    stack, a second [get(C)] returns the same instance and changes
    nothing. *)
Theorem autobind_memoized w self inj stack app C inst w1 :
  injectors w !! self = Some inj → _scopes_stack inj = Some stack →
  _app_scope inj = Some app → stack_live w stack → app ∈ stack →
  (∀ s, s ∈ stack → holds w C s = false) →
  autobind inj = true →
  call classes C w = (Ret inst, w1) →
  ∃ w2 s,
    scopes w1 !! app = Some s ∧
    w2 = with_scopes
           (<[app := mkScope (scope_cls s) (<[C := inst]> (_bindings s))
                       (_factories s)]> (scopes w1)) w1 ∧
    (∀ none, get classes self C none w = (Ret inst, w2)) ∧
    binds w2 app C inst ∧
    (∀ none, get classes self C none w2 = (Ret inst, w2)).
Proof.
  intros Hi Hs Ha Hl Hin Hn Hab Hcall.
  pose proof (call_Ret_callable _ _ _ _ _ Hcall) as Hc.
  pose proof (call_extends classes C w) as Hext. rewrite Hcall in Hext.
  cbn in Hext.
  assert (Injector_at w self stack app) as Hat by (split; [by exists inj|done]).
  pose proof (extends_Injector_at _ _ _ _ _ Hext Hat) as Hat1.
  assert (∀ s, s ∈ stack → holds w1 C s = false) as Hn1.
  { intros s Hs'. rewrite (extends_holds w w1); [by apply Hn|done|].
    by eapply Forall_forall in Hl. }
  destruct Hat1 as [Hinj1 Hl1]. pose proof (conj Hinj1 Hl1) as Hat1.
  assert (is_Some (scopes w1 !! app)) as [s Happ].
  { by eapply Forall_forall in Hl1. }
  exists (with_scopes
            (<[app := mkScope (scope_cls s) (<[C := inst]> (_bindings s))
                        (_factories s)]> (scopes w1)) w1), s.
  split; [done|]. split; [done|].
  assert (binds
            (with_scopes
               (<[app := mkScope (scope_cls s) (<[C := inst]> (_bindings s))
                           (_factories s)]> (scopes w1)) w1) app C inst) as Hb.
  { eexists. split; [apply lookup_insert_eq|]. apply lookup_insert_eq. }
  split; [|split; [done|]].
  - intros none.
    rewrite (get_not_found classes _ _ _ _ _ _ Hi Hs Hl Hn), Hab, Hc. cbn.
    unfold bind_M at 1, try_except. rewrite Hcall.
    rewrite (bind_M_Ret _ _ _ _ _
               (bind_unbound _ _ _ _ _ C inst Hat1 Happ
                  (existsb_holds_false _ _ _ Hn1))).
    done.
  - intros none.
    apply list_elem_of_split_l in Hin as (pre & post & -> & Hpre).
    erewrite get_found.
    + by apply Scope_get_bound.
    + by apply Injector_at_store_scope.
    + intros a Ha'. unfold holds, bound_in, factory_bound_in. cbn.
      rewrite lookup_insert_ne by (by intros <-).
      apply (Hn1 a). apply elem_of_app. by left.
    + by eapply binds_holds.
Qed.
End resolution_properties.

(** * [clear] *)

Lemma default_app_scope_bindings self app thr req T :
  bool_decide (is_Some (_bindings (default_app_scope self app thr req) !! T))
  = default_key T.
Proof.
  unfold default_app_scope. cbn -[lookup insert].
  destruct T; cbn -[lookup insert];
    repeat first [ rewrite lookup_insert_eq
                 | rewrite lookup_insert_ne by done
                 | rewrite lookup_empty ];
    by (rewrite bool_decide_true by done) || (rewrite bool_decide_false by by intros [??]).
Qed.

Lemma default_world_bound_in w self ab app thr req T :
  new_scopes w app thr req →
  existsb (bound_in (default_world w self ab app thr req) T) [app; thr; req]
  = default_key T.
Proof.
  intros Hn. cbn [existsb]. unfold bound_in.
  rewrite (default_world_lookup_app _ _ _ _ _ _ Hn),
    (default_world_lookup_thr _ _ _ _ _ _ Hn), default_world_lookup_req.
  rewrite default_app_scope_bindings. cbn.
  rewrite lookup_empty. rewrite bool_decide_false by by intros [??].
  by rewrite !orb_false_r.
Qed.

Lemma default_world_factory_bound_in w self ab app thr req T :
  new_scopes w app thr req →
  existsb (factory_bound_in (default_world w self ab app thr req) T)
    [app; thr; req] = false.
Proof.
  intros Hn. cbn [existsb]. unfold factory_bound_in.
  rewrite (default_world_lookup_app _ _ _ _ _ _ Hn),
    (default_world_lookup_thr _ _ _ _ _ _ Hn), default_world_lookup_req.
  cbn. rewrite lookup_empty. by rewrite bool_decide_false by by intros [??].
Qed.

Lemma default_world_binds w self ab app thr req T x :
  new_scopes w app thr req →
  _bindings (default_app_scope self app thr req) !! T = Some x →
  binds (default_world w self ab app thr req) app T x.
Proof.
  intros Hn Hx. eexists. split; [by apply default_world_lookup_app|done].
Qed.

Lemma default_world_is_scope_bound w self ab app thr req K :
  is_scope_bound self K (default_world w self ab app thr req)
  = (Ret (default_scope_key K), default_world w self ab app thr req).
Proof.
  unfold is_scope_bound, get_scopes.
  erewrite bind_M_Ret; [|erewrite bind_M_Ret;
    [|apply load_injector_Some, lookup_insert_eq]; done].
  unfold ret. f_equal. f_equal.
  destruct K; cbn -[lookup insert];
    repeat first [ rewrite lookup_insert_eq
                 | rewrite lookup_insert_ne by done
                 | rewrite lookup_empty ];
    by (rewrite bool_decide_true by done) || (rewrite bool_decide_false by by intros [??]).
Qed.

Section clear.
Context (classes : positive → option callable).

(** C7, as amended.  [clear] on a live injector returns and leaves the
    default configuration on three new scope objects: a key is bound
    iff it is one of [ApplicationScope], [ThreadScope], [RequestScope]
    and [Injector]; no key has a factory binding; [is_scope_bound] is
    true for the three scope classes and for nothing else; [Injector]
    resolves to the injector itself and each scope class to its new
    scope object. *)
Theorem clear_reinitializes w self inj :
  injectors w !! self = Some inj →
  ∃ w' app thr req,
    clear self w = (Ret (), w') ∧
    new_scopes w app thr req ∧
    (∀ T, is_bound self T w' = (Ret (default_key T), w')) ∧
    (∀ T, is_factory_bound self T w' = (Ret false, w')) ∧
    (∀ K, is_scope_bound self K w' = (Ret (default_scope_key K), w')) ∧
    (∀ none,
       get classes self K_Injector none w' = (Ret (VInjector self), w') ∧
       get classes self K_ApplicationScope none w' = (Ret (VScope app), w') ∧
       get classes self K_ThreadScope none w' = (Ret (VScope thr), w') ∧
       get classes self K_RequestScope none w' = (Ret (VScope req), w')).
Proof.
  intros Hi. destruct (clear_spec w self inj Hi) as (app & thr & req & Hn & E).
  eexists _, app, thr, req. split; [done|]. split; [done|].
  pose proof (default_world_ok w self (autobind inj) app thr req Hn) as Hok.
  repeat split.
  - intros T. rewrite (is_bound_live _ _ _ _ T Hok).
    by rewrite default_world_bound_in.
  - intros T. rewrite (is_factory_bound_live _ _ _ _ T Hok).
    by rewrite default_world_factory_bound_in.
  - apply default_world_is_scope_bound.
  - eapply get_bound_head; [done|]. by apply default_world_binds.
  - eapply get_bound_head; [done|]. by apply default_world_binds.
  - eapply get_bound_head; [done|]. by apply default_world_binds.
  - eapply get_bound_head; [done|]. by apply default_world_binds.
Qed.
End clear.

(** * Registration *)

Lemma run_reg_op_step o w :
  reg_state_of (run_reg_op o w).2 = (spec_reg_step (reg_state_of w) o).1 ∧
  outcome_exc (run_reg_op o w).1 = (spec_reg_step (reg_state_of w) o).2 ∧
  (run_reg_op o w).2 = with_slot (Injector_injector (run_reg_op o w).2) w.
Proof.
  destruct w as [slot injs scps n h].
  destruct o as [self|[i|]]; cbn; unfold reg_state_of, register, cls_register,
    cls_unregister; cbn; destruct slot as [j|]; cbn; try done.
  destruct (decide (i = j)) as [->|Hne].
  - by rewrite bool_decide_false by (by intros []).
  - by rewrite bool_decide_true by congruence.
Qed.

(** C6. The registration code is the two-state machine of the design:
    started in any store, any sequence of [register] and [unregister]
    calls leaves the slot in the state the machine reaches, each call
    raises exactly when the machine says so (already-registered, naming
    the registered instance, which stays registered) and changes nothing
    but the slot; and in every store at most one injector is
    registered. *)
Theorem registration_state_machine :
  (∀ o w,
     reg_state_of (run_reg_op o w).2 = (spec_reg_step (reg_state_of w) o).1 ∧
     outcome_exc (run_reg_op o w).1 = (spec_reg_step (reg_state_of w) o).2 ∧
     (run_reg_op o w).2 = with_slot (Injector_injector (run_reg_op o w).2) w) ∧
  (∀ ops w,
     reg_state_of (foldl (λ w o, (run_reg_op o w).2) w ops)
     = foldl (λ st o, (spec_reg_step st o).1) (reg_state_of w) ops) ∧
  (∀ w i j,
     is_registered i w = (Ret true, w) → is_registered j w = (Ret true, w) →
     i = j).
Proof.
  split; [apply run_reg_op_step|]. split.
  - intros ops. induction ops as [|o ops IH]; intros w; [done|]. cbn.
    rewrite IH. f_equal. apply run_reg_op_step.
  - intros w i j. unfold is_registered, cls_is_registered.
    intros [= Hi%bool_decide_eq_true] [= Hj%bool_decide_eq_true]. congruence.
Qed.

(** * The application scope *)

(** C8, at the input where it fails.  On a new injector built with
    [autobind=False], [unbind_scope(ApplicationScope)] returns; after it
    [is_scope_bound(ApplicationScope)] is false and the application scope
    is no longer in the scope stack, while [bind] still writes to it: a
    key bound afterwards is not found by [get]. *)
Theorem unbind_scope_drops_application_scope :
  let w1 := (unbind_scope 1 K_ApplicationScope w_no_autobind).2 in
  (is_scope_bound 1 K_ApplicationScope w_no_autobind).1 = Ret true ∧
  (unbind_scope 1 K_ApplicationScope w_no_autobind).1 = Ret () ∧
  (is_scope_bound 1 K_ApplicationScope w1).1 = Ret false ∧
  (get_scopes_stack 1 w1).1 = Ret [2; 3]%positive ∧
  (get_app_scope 1 w1).1 = Ret 1%positive ∧
  ((bind 1 (K_user 1) (VObj 7);;
    get example_classes 1 (K_user 1) true) w1).1 = Ret VNone ∧
  ((bind 1 (K_user 1) (VObj 7);;
    get example_classes 1 (K_user 1) false) w1).1
  = Exc (NotBoundError (K_user 1)).
Proof. vm_compute. done. Qed.

(** * What [clear] and construction leave alone *)

(** C10. [clear] and the construction of an injector leave the
    registration slot as it is, so the answers of [is_registered] are the
    same before and after; on a live injector [clear] writes that
    injector's own attributes only, keeping its [autobind], the other
    injectors, the scope objects that existed, the object counter and the
    logging set-up. *)
Theorem clear_keeps_registration w :
  (∀ self i,
     Injector_injector (clear self w).2 = Injector_injector w ∧
     (cls_is_registered i (clear self w).2).1 = (cls_is_registered i w).1) ∧
  (∀ ab echo i,
     Injector_injector (Injector_new ab echo w).2 = Injector_injector w ∧
     (cls_is_registered i (Injector_new ab echo w).2).1
     = (cls_is_registered i w).1) ∧
  (∀ self inj,
     injectors w !! self = Some inj →
     (∃ inj', injectors (clear self w).2 = <[self := inj']> (injectors w) ∧
              autobind inj' = autobind inj) ∧
     scopes w ⊆ scopes (clear self w).2 ∧
     next_obj (clear self w).2 = next_obj w ∧
     stdout_handler (clear self w).2 = stdout_handler w).
Proof.
  assert (∀ w' i, Injector_injector w' = Injector_injector w →
            (cls_is_registered i w').1 = (cls_is_registered i w).1) as Hreg.
  { intros w' i E. unfold cls_is_registered. destruct i; cbn; by rewrite E. }
  repeat split.
  - apply slot_clear.
  - apply Hreg, slot_clear.
  - apply slot_Injector_new.
  - apply Hreg, slot_Injector_new.
  - destruct (clear_spec w self inj H) as (app & thr & req & Hn & ->).
    by eexists.
  - destruct (clear_spec w self inj H) as (app & thr & req & Hn & ->).
    by apply default_world_scopes_extend.
  - by destruct (clear_spec w self inj H) as (app & thr & req & Hn & ->).
  - by destruct (clear_spec w self inj H) as (app & thr & req & Hn & ->).
Qed.

(** * The properties on concrete stores *)

(** Decides the side conditions on a concrete store by evaluation. *)
Ltac by_evaluation :=
  lazymatch goal with
  | |- Injector_ok _ _ _ _ => unfold Injector_ok; by_evaluation
  | |- Injector_at _ _ _ _ =>
      split;
      [ eexists; split; [vm_compute; reflexivity|split; reflexivity]
      | by_evaluation ]
  | |- stack_live _ _ =>
      repeat apply Forall_cons_2; try apply Forall_nil_2;
      vm_compute; eexists; reflexivity
  | |- ∀ s, s ∈ _ → _ =>
      let s := fresh "s" in
      let Hs := fresh "Hs" in
      intros s Hs;
      repeat (apply elem_of_cons in Hs as [-> | Hs]);
      try (vm_compute; reflexivity);
      by apply elem_of_nil in Hs
  | |- _ ∈ _ => repeat first [ apply list_elem_of_here | apply list_elem_of_further ]
  | |- _ => vm_compute; reflexivity
  end.

Lemma bind_then_get_witness :
  Injector_ok w_default 1 1 [2; 3]%positive ∧
  ∃ w1, bind 1 (K_user 3) (VObj 7) w_default = (Ret (), w1) ∧
    (∀ ops none, Forall (λ o, leaves_binding (K_user 3) o = true) ops →
       get example_classes 1 (K_user 3) none (run_ops example_classes 1 ops w1)
       = (Ret (VObj 7), run_ops example_classes 1 ops w1)) ∧
    (∀ y, ∃ w2, bind 1 (K_user 3) y w1 = (Ret (), w2) ∧
       ∀ none, get example_classes 1 (K_user 3) none w2 = (Ret y, w2)).
Proof.
  assert (Injector_ok w_default 1 1 [2; 3]%positive) as Hok by by_evaluation.
  split; [exact Hok|].
  exact (bind_then_get example_classes w_default 1 1 [2; 3]%positive
           (K_user 3) (VObj 7) Hok).
Defined.


Lemma get_unbound_witness :
  get example_classes 1 (K_user 1) true w_no_autobind
  = (Ret VNone, w_no_autobind) ∧
  get example_classes 1 (K_user 1) false w_no_autobind
  = (Exc (NotBoundError (K_user 1)), w_no_autobind).
Proof.
  apply (get_unbound example_classes w_no_autobind 1
           (default_injector false 1 2 3) [1; 2; 3]%positive (K_user 1)).
  - by_evaluation.
  - reflexivity.
  - by_evaluation.
  - by_evaluation.
  - left. reflexivity.
Defined.



Lemma autobind_memoized_witness :
  ∃ w2 s,
    scopes (with_next_obj 2 w_default) !! 1%positive = Some s ∧
    w2 = with_scopes
           (<[1%positive := mkScope (scope_cls s)
                              (<[K_user 1 := VObj 1]> (_bindings s))
                              (_factories s)]>
              (scopes (with_next_obj 2 w_default)))
           (with_next_obj 2 w_default) ∧
    (∀ none, get example_classes 1 (K_user 1) none w_default
             = (Ret (VObj 1), w2)) ∧
    binds w2 1 (K_user 1) (VObj 1) ∧
    (∀ none, get example_classes 1 (K_user 1) none w2 = (Ret (VObj 1), w2)).
Proof.
  apply (autobind_memoized example_classes w_default 1
           (default_injector true 1 2 3) [1; 2; 3]%positive 1 (K_user 1)
           (VObj 1) (with_next_obj 2 w_default)).
  - by_evaluation.
  - reflexivity.
  - reflexivity.
  - by_evaluation.
  - by_evaluation.
  - by_evaluation.
  - reflexivity.
  - reflexivity.
Defined.

Lemma registration_state_machine_witness :
  is_registered 1 (with_slot (Some 1%positive) w_default)
  = (Ret true, with_slot (Some 1%positive) w_default) ∧
  (1 = 1)%positive.
Proof.
  assert (is_registered 1 (with_slot (Some 1%positive) w_default)
          = (Ret true, with_slot (Some 1%positive) w_default)) as H
    by reflexivity.
  split; [exact H|].
  exact (proj2 (proj2 registration_state_machine)
           (with_slot (Some 1%positive) w_default) 1%positive 1%positive H H).
Defined.

Lemma clear_reinitializes_witness :
  ∃ w' app thr req,
    clear 1 w_default = (Ret (), w') ∧
    new_scopes w_default app thr req ∧
    (∀ T, is_bound 1 T w' = (Ret (default_key T), w')) ∧
    (∀ T, is_factory_bound 1 T w' = (Ret false, w')) ∧
    (∀ K, is_scope_bound 1 K w' = (Ret (default_scope_key K), w')) ∧
    (∀ none,
       get example_classes 1 K_Injector none w' = (Ret (VInjector 1), w') ∧
       get example_classes 1 K_ApplicationScope none w'
       = (Ret (VScope app), w') ∧
       get example_classes 1 K_ThreadScope none w' = (Ret (VScope thr), w') ∧
       get example_classes 1 K_RequestScope none w' = (Ret (VScope req), w')).
Proof.
  apply (clear_reinitializes example_classes w_default 1
           (default_injector true 1 2 3)).
  by_evaluation.
Defined.

Lemma clear_keeps_registration_witness :
  (∃ inj', injectors (clear 1 w_default).2
           = <[1%positive := inj']> (injectors w_default) ∧
           autobind inj' = true) ∧
  scopes w_default ⊆ scopes (clear 1 w_default).2 ∧
  next_obj (clear 1 w_default).2 = next_obj w_default ∧
  stdout_handler (clear 1 w_default).2 = stdout_handler w_default.
Proof.
  apply (proj2 (proj2 (clear_keeps_registration w_default)) 1%positive
           (default_injector true 1 2 3)).
  by_evaluation.
Defined.

(** C7 as stated fails on a new injector: [ApplicationScope] is bound
    before [clear] and bound after it. *)
Lemma clear_rebinds_ApplicationScope :
  ¬ clear_unbinds w_default 1 K_ApplicationScope.
Proof.
  unfold clear_unbinds. intros H.
  assert ((is_bound 1 K_ApplicationScope w_default).1 = Ret true) as Hb
    by (vm_compute; reflexivity).
  specialize (H Hb). vm_compute in H. discriminate H.
Qed.

(** * Further properties *)

(** ** Construction, [create] and [get_instance] *)

(** X1. [Injector(autobind, echo)] always returns.  The injector is a
    new object with the flag [autobind], a scope table for the three
    scope classes and the scope stack application, thread, request, on
    three new and distinct scope objects; the objects that existed are
    untouched, the registration slot too; the output handler is on
    afterwards iff [echo] was given or it was on before.  In the new
    injector exactly the three scope classes and [Injector] are bound,
    and they resolve to the new scopes and to the injector itself. *)
Theorem Injector_new_default_configuration w ab echo :
  ∃ self app thr req w',
    Injector_new ab echo w = (Ret self, w') ∧
    injectors w !! self = None ∧ new_scopes w app thr req ∧
    injectors w' !! self = Some (default_injector ab app thr req) ∧
    extends w w' ∧
    Injector_injector w' = Injector_injector w ∧
    stdout_handler w' = echo || stdout_handler w ∧
    (∀ T, is_bound self T w' = (Ret (default_key T), w')) ∧
    (∀ K, is_scope_bound self K w' = (Ret (default_scope_key K), w')) ∧
    (∀ classes none,
       get classes self K_Injector none w' = (Ret (VInjector self), w') ∧
       get classes self K_ApplicationScope none w' = (Ret (VScope app), w') ∧
       get classes self K_ThreadScope none w' = (Ret (VScope thr), w') ∧
       get classes self K_RequestScope none w' = (Ret (VScope req), w')).
Proof.
  destruct (Injector_new_spec w ab echo)
    as (self & app & thr & req & Hs & Hn & E).
  exists self, app, thr, req. eexists. split; [exact E|].
  set (w0 := with_stdout_handler (echo || stdout_handler w) w) in *.
  assert (new_scopes w0 app thr req) as Hn0 by done.
  pose proof (default_world_ok w0 self ab app thr req Hn0) as Hok.
  split; [done|]. split; [done|]. split; [apply lookup_insert_eq|].
  split; [by apply (default_world_extends w0)|].
  split; [done|]. split; [done|]. split; [|split].
  - intros T. rewrite (is_bound_live _ _ _ _ T Hok).
    by rewrite default_world_bound_in.
  - apply default_world_is_scope_bound.
  - intros classes none.
    repeat split; (eapply get_bound_head; [done|]);
      by apply default_world_binds.
Qed.

(** X2. [create] builds the injector first and registers it next: with
    no injector registered it returns the new injector, registered; with
    [another] registered it raises [InjectorAlreadyRegistered(another)]
    and [another] stays registered, but the new injector object has been
    built, and the output handler installed if [echo] was given. *)
Theorem create_registers_or_fails w ab echo :
  ∃ self w',
    Injector_new ab echo w = (Ret self, w') ∧
    injectors w !! self = None ∧ is_Some (injectors w' !! self) ∧
    stdout_handler w' = echo || stdout_handler w ∧
    match Injector_injector w with
    | None =>
        create ab echo w = (Ret self, with_slot (Some self) w') ∧
        is_registered self (with_slot (Some self) w')
        = (Ret true, with_slot (Some self) w')
    | Some another =>
        create ab echo w = (Exc (InjectorAlreadyRegistered another), w') ∧
        is_registered another w' = (Ret true, w')
    end.
Proof.
  destruct (Injector_new_spec w ab echo)
    as (self & app & thr & req & Hs & Hn & E).
  exists self. eexists. split; [exact E|]. split; [done|].
  split; [cbn; by rewrite lookup_insert_eq|]. split; [done|].
  unfold create. rewrite (bind_M_Ret _ _ _ _ _ E).
  unfold register, cls_register, is_registered, cls_is_registered, bind_M.
  cbn. destruct (Injector_injector w) as [another|]; cbn.
  - by rewrite bool_decide_true.
  - by rewrite bool_decide_true.
Qed.

Section get_instance.
Context (classes : positive → option callable).

(** X3. [get_instance] needs a registered injector: with none it raises
    [NoInjectorRegistered] whatever is asked for and changes nothing, in
    particular right after [unregister()]; right after a successful
    [create] it resolves through the created injector, so that asking
    for [Injector] gives that injector. *)
Theorem get_instance_needs_registration w :
  (∀ type none,
     get_instance classes type none (cls_unregister None w).2
     = (Exc NoInjectorRegistered, (cls_unregister None w).2)) ∧
  (∀ ab echo,
     Injector_injector w = None →
     ∃ self w',
       create ab echo w = (Ret self, w') ∧
       ∀ type none,
         get_instance classes type none w' = get classes self type none w' ∧
         get_instance classes K_Injector none w' = (Ret (VInjector self), w')).
Proof.
  split; [done|]. intros ab echo Hnone.
  destruct (Injector_new_spec w ab echo)
    as (self & app & thr & req & Hs & Hn & E).
  exists self. eexists. split.
  { unfold create. rewrite (bind_M_Ret _ _ _ _ _ E).
    unfold register, cls_register, bind_M. cbn. by rewrite Hnone. }
  intros type none. split; [done|].
  unfold get_instance, cls_get_injector, bind_M. cbn.
  set (w0 := with_stdout_handler (echo || stdout_handler w) w) in *.
  assert (new_scopes w0 app thr req) as Hn0 by done.
  pose proof (default_world_ok w0 self ab app thr req Hn0) as [Hi Hl].
  eapply get_bound_head.
  - split; [|exact Hl]. exact Hi.
  - exists (default_app_scope self app thr req). split; [|done]. cbn.
    destruct Hn as (_ & _ & _ & ? & ? & ?).
    rewrite !lookup_insert_ne by done. apply lookup_insert_eq.
Qed.
End get_instance.

(** X4. Registration is exclusive and can be handed over: with [i1]
    registered, [i2.register()] raises naming [i1] and [i1] stays
    registered; [i2.unregister()] then changes nothing; after
    [i1.unregister()], [i2.register()] succeeds, [i2] is registered and
    [i1] is not; [unregister()] with no argument then leaves nothing
    registered. *)
Theorem registration_hand_over w i1 i2 :
  Injector_injector w = Some i1 → i1 ≠ i2 →
  register i2 w = (Exc (InjectorAlreadyRegistered i1), w) ∧
  unregister i2 w = (Ret (), w) ∧
  (unregister i1;; register i2) w = (Ret (), with_slot (Some i2) w) ∧
  is_registered i2 (with_slot (Some i2) w) = (Ret true, with_slot (Some i2) w) ∧
  is_registered i1 (with_slot (Some i2) w) = (Ret false, with_slot (Some i2) w) ∧
  (cls_unregister None;; cls_is_registered None) (with_slot (Some i2) w)
  = (Ret false, with_slot None w).
Proof.
  intros Hslot Hne. destruct w as [slot injs scps n h]. cbn in Hslot. subst.
  unfold register, unregister, is_registered, cls_register, cls_unregister,
    cls_is_registered, bind_M, with_slot. cbn.
  repeat split; repeat (case_bool_decide; cbn); congruence.
Qed.

(** ** [unbind], [bind] and [is_bound] *)

Lemma with_scopes_id w : with_scopes (scopes w) w = w.
Proof. by destruct w. Qed.

Lemma Scope_unbind_live w scope s type :
  scopes w !! scope = Some s →
  Scope_unbind scope type w
  = (Ret (), with_scopes (<[scope := scope_without type s]> (scopes w)) w).
Proof.
  intros Hs. unfold Scope_unbind.
  by rewrite (bind_M_Ret _ _ _ _ _ (load_scope_Some _ _ _ Hs)).
Qed.

Lemma unbind_loop_none w stack type :
  stack_live w stack → existsb (bound_in w type) stack = false →
  unbind_loop stack type w = (Ret (), w).
Proof.
  induction 1 as [|a rest Ha _ IH]; [done|]. cbn.
  intros [Hb Hr]%orb_false_elim.
  rewrite (bind_M_Ret _ _ _ _ _ (Scope_is_bound_live _ _ type Ha)), Hb.
  by apply IH.
Qed.

Lemma unbind_loop_first w pre scope post s type :
  stack_live w (pre ++ scope :: post) →
  (∀ a, a ∈ pre → bound_in w type a = false) →
  scopes w !! scope = Some s → is_Some (_bindings s !! type) →
  unbind_loop (pre ++ scope :: post) type w
  = (Ret (), with_scopes (<[scope := scope_without type s]> (scopes w)) w).
Proof.
  induction pre as [|a pre IH]; intros Hl Hn Hs Hb; cbn.
  - apply Forall_cons in Hl as [Ha _].
    rewrite (bind_M_Ret _ _ _ _ _ (Scope_is_bound_live _ _ type Ha)).
    unfold bound_in. rewrite Hs, bool_decide_true by done.
    by apply Scope_unbind_live.
  - apply Forall_cons in Hl as [Ha Hl].
    rewrite (bind_M_Ret _ _ _ _ _ (Scope_is_bound_live _ _ type Ha)).
    rewrite (Hn a) by left.
    apply IH; [done| |done|done]. intros b Hb'. apply Hn. by right.
Qed.

(** X5. [unbind] works on the first scope of the stack that binds the
    type and on nothing else: when no scope binds it, the store is left
    as it is; otherwise that scope loses the binding and every other
    scope keeps what it has, so that a type also bound in a later scope
    is still bound. *)
Theorem unbind_first_occurrence w self stack app T :
  Injector_at w self stack app →
  (existsb (bound_in w T) stack = false → unbind self T w = (Ret (), w)) ∧
  (∀ pre scope post s,
     stack = pre ++ scope :: post →
     (∀ a, a ∈ pre → bound_in w T a = false) →
     scopes w !! scope = Some s → is_Some (_bindings s !! T) →
     let w' := with_scopes (<[scope := scope_without T s]> (scopes w)) w in
     unbind self T w = (Ret (), w') ∧
     bound_in w' T scope = false ∧
     (∀ a T', a ≠ scope ∨ T' ≠ T → bound_in w' T' a = bound_in w T' a) ∧
     (∀ a, a ∈ post → a ≠ scope → bound_in w T a = true →
           is_bound self T w' = (Ret true, w'))).
Proof.
  intros Hat. pose proof Hat as [(inj & Hi & Hs & _) Hl]. split.
  - intros Hn. unfold unbind.
    rewrite (bind_M_Ret _ _ _ _ _ (get_scopes_stack_Some _ _ _ _ Hi Hs)).
    by apply unbind_loop_none.
  - intros pre scope post s -> Hpre Hsc Hb w'.
    assert (∀ a T', a ≠ scope ∨ T' ≠ T → bound_in w' T' a = bound_in w T' a)
      as Hother.
    { intros a T' Hne. unfold bound_in, w'. cbn.
      destruct (decide (scope = a)) as [->|].
      - rewrite lookup_insert_eq, Hsc. cbn.
        destruct Hne as [?|?]; [done|]. by rewrite lookup_delete_ne.
      - by rewrite lookup_insert_ne. }
    split; [|split; [|split; [done|]]].
    + unfold unbind.
      rewrite (bind_M_Ret _ _ _ _ _ (get_scopes_stack_Some _ _ _ _ Hi Hs)).
      by apply unbind_loop_first.
    + unfold bound_in, w'. cbn. rewrite lookup_insert_eq. cbn.
      rewrite lookup_delete_eq. by rewrite bool_decide_false by by intros [??].
    + intros a Ha Hne Hba.
      rewrite (is_bound_live w' self (pre ++ scope :: post) app T).
      * f_equal. f_equal. apply existsb_exists. exists a. split.
        -- apply list_elem_of_In, elem_of_app. right. by right.
        -- rewrite Hother by by left. done.
      * by apply Injector_at_store_scope.
Qed.

Lemma Injector_ok_app_live w self app rest :
  Injector_ok w self app rest → is_Some (scopes w !! app).
Proof. intros [_ Hl]. by apply Forall_cons in Hl as [? _]. Qed.

(** [bind] when no scope after the head binds the type: the head scope
    gets the binding and nothing else changes. *)
Lemma bind_head w self app rest s type to :
  Injector_ok w self app rest → scopes w !! app = Some s →
  (∀ a, a ∈ rest → bound_in w type a = false) →
  bind self type to w
  = (Ret (), with_scopes (<[app := scope_with type to s]> (scopes w)) w).
Proof.
  intros Hok Hs Hrest. pose proof Hok as [(inj & Hi & Hst & Ha) Hl].
  destruct (bound_in w type app) eqn:Hb.
  - unfold bind. rewrite (bind_M_Ret _ _ _ _ _ (is_bound_live _ _ _ _ type Hok)).
    cbn [existsb]. rewrite Hb. cbn.
    assert (is_Some (_bindings s !! type)) as Hbs.
    { unfold bound_in in Hb. rewrite Hs in Hb. by apply bool_decide_eq_true in Hb. }
    erewrite bind_M_Ret; cycle 1.
    { unfold unbind.
      rewrite (bind_M_Ret _ _ _ _ _ (get_scopes_stack_Some _ _ _ _ Hi Hst)).
      apply (unbind_loop_first w [] app rest s type Hl); [|done|done].
      by intros a ?%elem_of_nil. }
    erewrite bind_M_Ret; [|by eapply get_app_scope_Some].
    erewrite Scope_bind_live; [|apply lookup_insert_eq].
    cbn. rewrite insert_insert_eq. unfold scope_with. cbn.
    by rewrite insert_delete_eq.
  - apply (bind_unbound w self (app :: rest) app s type to Hok Hs).
    cbn. rewrite Hb. cbn. apply not_true_is_false.
    intros (a & Ha' & Hba)%existsb_exists.
    apply list_elem_of_In, Hrest in Ha'. congruence.
Qed.

(** X6. On an injector whose application scope heads the stack, a type
    that no later scope binds is bound right after [bind] ([is_bound]
    and [in] are true), and unbound right after a following [unbind];
    the two calls together leave the application scope without a binding
    for the type and the rest of the store as it was, so that when the
    type was unbound to begin with, [bind] then [unbind] gives back the
    store it started from. *)
Theorem bind_unbind_round_trip w self app rest T x :
  Injector_ok w self app rest →
  (∀ a, a ∈ rest → bound_in w T a = false) →
  ∃ s w1 w2,
    scopes w !! app = Some s ∧
    bind self T x w = (Ret (), w1) ∧
    is_bound self T w1 = (Ret true, w1) ∧
    contains self T w1 = (Ret true, w1) ∧
    unbind self T w1 = (Ret (), w2) ∧
    is_bound self T w2 = (Ret false, w2) ∧
    w2 = with_scopes (<[app := scope_without T s]> (scopes w)) w ∧
    (bound_in w T app = false → w2 = w).
Proof.
  intros Hok Hrest. destruct (Injector_ok_app_live _ _ _ _ Hok) as [s Hs].
  pose proof Hok as [(inj & Hi & Hst & Ha) Hl].
  set (w1 := with_scopes (<[app := scope_with T x s]> (scopes w)) w).
  set (w2 := with_scopes (<[app := scope_without T s]> (scopes w)) w).
  assert (Injector_ok w1 self app rest) as Hok1
    by by apply Injector_at_store_scope.
  assert (Injector_ok w2 self app rest) as Hok2
    by by apply Injector_at_store_scope.
  assert (is_bound self T w1 = (Ret true, w1)) as Hb1.
  { rewrite (is_bound_live _ _ _ _ T Hok1). cbn [existsb]. unfold bound_in at 1.
    cbn. rewrite lookup_insert_eq. cbn. rewrite lookup_insert_eq.
    by rewrite bool_decide_true. }
  exists s, w1, w2. split; [done|]. split; [by apply (bind_head w self app rest)|].
  split; [done|]. split; [done|]. split; [|split; [|split; [done|]]].
  - unfold unbind.
    rewrite (bind_M_Ret _ _ _ _ _
               (get_scopes_stack_Some w1 _ _ _ Hi Hst)).
    destruct Hok1 as [_ Hl1].
    etrans; [apply (unbind_loop_first w1 [] app rest (scope_with T x s) T Hl1)|].
    + by intros a ?%elem_of_nil.
    + apply lookup_insert_eq.
    + cbn. by rewrite lookup_insert_eq.
    + unfold w1, w2. cbn. rewrite insert_insert_eq. unfold scope_without. cbn.
      by rewrite delete_insert_eq.
  - rewrite (is_bound_live _ _ _ _ T Hok2). f_equal. f_equal.
    apply not_true_is_false. intros (a & Ha' & Hba)%existsb_exists.
    apply list_elem_of_In, elem_of_cons in Ha'.
    unfold bound_in, w2 in Hba. cbn in Hba.
    destruct (decide (app = a)) as [<-|Hne].
    + rewrite lookup_insert_eq in Hba. cbn in Hba.
      rewrite lookup_delete_eq in Hba. by apply bool_decide_eq_true in Hba as [??].
    + destruct Ha' as [->|Ha']; [done|].
      rewrite lookup_insert_ne in Hba by done.
      specialize (Hrest a Ha'). unfold bound_in in Hrest. congruence.
  - intros Hb. unfold w2, scope_without. unfold bound_in in Hb.
    rewrite Hs in Hb. apply bool_decide_eq_false in Hb.
    rewrite delete_id by (by apply eq_None_not_Some).
    destruct s. rewrite insert_id by done. apply with_scopes_id.
Qed.

(** ** Registering scopes *)

Lemma get_scopes_Some w self inj table :
  injectors w !! self = Some inj → _scopes inj = Some table →
  get_scopes self w = (Ret table, w).
Proof.
  intros Hi Hs. unfold get_scopes.
  rewrite (bind_M_Ret _ _ _ _ _ (load_injector_Some _ _ _ Hi)). by rewrite Hs.
Qed.

Lemma set_scopes_live w self inj table :
  injectors w !! self = Some inj →
  set_scopes self table w
  = (Ret (),
     with_injectors
       (<[self := mkInjector (autobind inj) table (_scopes_stack inj)
                    (_app_scope inj)]> (injectors w)) w).
Proof.
  intros Hi. unfold set_scopes.
  by rewrite (bind_M_Ret _ _ _ _ _ (load_injector_Some _ _ _ Hi)).
Qed.

Lemma set_scopes_stack_live w self inj stack :
  injectors w !! self = Some inj →
  set_scopes_stack self stack w
  = (Ret (),
     with_injectors
       (<[self := mkInjector (autobind inj) (_scopes inj) stack
                    (_app_scope inj)]> (injectors w)) w).
Proof.
  intros Hi. unfold set_scopes_stack.
  by rewrite (bind_M_Ret _ _ _ _ _ (load_injector_Some _ _ _ Hi)).
Qed.

Lemma list_remove_Some x l l' : list_remove x l = Some l' → l ≡ₚ x :: l'.
Proof.
  revert l'. induction l as [|y l IH]; intros l'; cbn; [done|].
  destruct (decide (y = x)) as [->|Hne]; [by intros [= ->]|].
  destruct (list_remove x l) as [l0|]; cbn; [|done]. intros [= <-].
  rewrite (IH l0 eq_refl). apply Permutation_swap.
Qed.

Lemma list_remove_elem_of x l : x ∈ l → is_Some (list_remove x l).
Proof.
  induction l as [|y l IH]; [by intros ?%elem_of_nil|]. cbn.
  destruct (decide (y = x)) as [->|Hne]; [done|].
  intros [?|Hin]%elem_of_cons; [congruence|].
  destruct (IH Hin) as [l' ->]. done.
Qed.

Lemma list_remove_first x l1 l2 :
  x ∉ l1 → list_remove x (l1 ++ x :: l2) = Some (l1 ++ l2).
Proof.
  induction l1 as [|y l1 IH]; cbn; intros Hn.
  - by rewrite decide_True.
  - apply not_elem_of_cons in Hn as [Hne Hn].
    rewrite decide_False by done. by rewrite IH.
Qed.

Lemma list_remove_last x l : x ∉ l → list_remove x (l ++ [x]) = Some l.
Proof.
  intros Hn. rewrite (list_remove_first x l []) by done. by rewrite app_nil_r.
Qed.

(** The run of [unbind_scope] once [unbind] has returned. *)
Lemma unbind_scope_present w w1 self inj table stack K scope :
  injectors w !! self = Some inj →
  _scopes inj = Some table → _scopes_stack inj = Some stack →
  table !! K = Some scope →
  unbind self K w = (Ret (), w1) → injectors w1 !! self = Some inj →
  unbind_scope self K w
  = match list_remove scope stack with
    | Some stack' =>
        (Ret (),
         with_injectors
           (<[self := mkInjector (autobind inj) (Some (delete K table))
                        (Some stack') (_app_scope inj)]> (injectors w1)) w1)
    | None =>
        (Exc ValueError,
         with_injectors
           (<[self := mkInjector (autobind inj) (Some (delete K table))
                        (Some stack) (_app_scope inj)]> (injectors w1)) w1)
    end.
Proof.
  intros Hi Ht Hs HK Hun Hi1. unfold unbind_scope.
  rewrite (bind_M_Ret _ _ _ _ _ (get_scopes_Some _ _ _ _ Hi Ht)).
  rewrite bool_decide_false by (by rewrite HK).
  rewrite (bind_M_Ret _ _ _ _ _ Hun).
  rewrite (bind_M_Ret _ _ _ _ _ (get_scopes_Some _ _ _ _ Hi1 Ht)), HK.
  rewrite (bind_M_Ret _ _ _ _ _ (get_scopes_Some _ _ _ _ Hi1 Ht)).
  rewrite (bind_M_Ret _ _ _ _ _ (set_scopes_live _ _ _ _ Hi1)).
  erewrite bind_M_Ret;
    [|eapply get_scopes_stack_Some; [apply lookup_insert_eq|done]].
  destruct (list_remove scope stack) as [stack'|]; [|by rewrite Hs].
  erewrite set_scopes_stack_live; [|apply lookup_insert_eq].
  cbn. by rewrite insert_insert_eq.
Qed.

(** The run of [bind_scope] once [unbind_scope] and [bind] have
    returned. *)
Lemma bind_scope_steps w w1 w2 self inj table stack K scope :
  unbind_scope self K w = (Ret (), w1) →
  bind self K (VScope scope) w1 = (Ret (), w2) →
  injectors w2 !! self = Some inj →
  _scopes inj = Some table → _scopes_stack inj = Some stack →
  bind_scope self K scope w
  = (Ret (),
     with_injectors
       (<[self := mkInjector (autobind inj) (Some (<[K := scope]> table))
                    (Some (stack ++ [scope])) (_app_scope inj)]>
          (injectors w2)) w2).
Proof.
  intros Hun Hb Hi Ht Hs. unfold bind_scope.
  rewrite (bind_M_Ret _ _ _ _ _ Hun), (bind_M_Ret _ _ _ _ _ Hb).
  rewrite (bind_M_Ret _ _ _ _ _ (get_scopes_Some _ _ _ _ Hi Ht)).
  rewrite (bind_M_Ret _ _ _ _ _ (set_scopes_live _ _ _ _ Hi)).
  erewrite bind_M_Ret;
    [|eapply get_scopes_stack_Some; [apply lookup_insert_eq|done]].
  erewrite set_scopes_stack_live; [|apply lookup_insert_eq].
  cbn. by rewrite insert_insert_eq.
Qed.

Lemma unbind_scope_absent w self inj table K :
  injectors w !! self = Some inj → _scopes inj = Some table →
  table !! K = None →
  unbind_scope self K w = (Ret (), w).
Proof.
  intros Hi Ht HK. unfold unbind_scope.
  rewrite (bind_M_Ret _ _ _ _ _ (get_scopes_Some _ _ _ _ Hi Ht)).
  by rewrite bool_decide_true.
Qed.

Section bind_scope.
Context (classes : positive → option callable).

(** X7. [bind_scope] of a scope class that is not in the scope table, on
    an injector whose application scope heads the stack and where no
    later scope binds the class: the scope object is put at the end of
    the scope stack, so after every scope that was there, and in the
    scope table; the class is bound to the scope object in the
    application scope, [is_scope_bound] is true and [get] of the class
    returns the scope object; nothing else changes. *)
Theorem bind_scope_new w self inj app rest table sc K scope :
  injectors w !! self = Some inj →
  _scopes inj = Some table → _scopes_stack inj = Some (app :: rest) →
  _app_scope inj = Some app → stack_live w (app :: rest) →
  scopes w !! app = Some sc → is_Some (scopes w !! scope) →
  table !! K = None → (∀ a, a ∈ rest → bound_in w K a = false) →
  let w' :=
    with_injectors
      (<[self := mkInjector (autobind inj) (Some (<[K := scope]> table))
                   (Some (app :: rest ++ [scope])) (Some app)]> (injectors w))
      (with_scopes (<[app := scope_with K (VScope scope) sc]> (scopes w)) w) in
  bind_scope self K scope w = (Ret (), w') ∧
  Injector_ok w' self app (rest ++ [scope]) ∧
  is_scope_bound self K w' = (Ret true, w') ∧
  (∀ none, get classes self K none w' = (Ret (VScope scope), w')).
Proof.
  intros Hi Ht Hs Ha Hl Hsc Hscope HK Hrest w'.
  assert (Injector_ok w self app rest) as Hok by (split; [by exists inj|done]).
  assert (Injector_ok w' self app (rest ++ [scope])) as Hok'.
  { split.
    - eexists. split; [apply lookup_insert_eq|done].
    - change (app :: rest ++ [scope]) with ((app :: rest) ++ [scope]).
      apply Forall_app. split.
      + eapply Forall_impl; [exact Hl|]. intros a Hx. cbn.
        destruct (decide (app = a)) as [->|].
        * by rewrite lookup_insert_eq.
        * by rewrite lookup_insert_ne.
      + apply Forall_singleton. cbn. destruct (decide (app = scope)) as [->|].
        * by rewrite lookup_insert_eq.
        * by rewrite lookup_insert_ne. }
  split; [|split; [done|split]].
  - rewrite (bind_scope_steps w w
               (with_scopes (<[app := scope_with K (VScope scope) sc]> (scopes w)) w)
               self inj table (app :: rest) K scope); try done.
    + rewrite Ha. done.
    + by eapply unbind_scope_absent.
    + by apply (bind_head w self app rest).
  - unfold is_scope_bound.
    erewrite bind_M_Ret;
      [|eapply get_scopes_Some; [apply lookup_insert_eq|done]].
    unfold ret. by rewrite lookup_insert_eq, bool_decide_true.
  - intros none. eapply get_bound_head; [done|].
    eexists. split; [apply lookup_insert_eq|]. cbn. apply lookup_insert_eq.
Qed.

(** X8. On an injector whose application scope heads the scope stack:
    [unbind_scope] of a class that is not in the scope table does
    nothing.  [bind_scope] followed by [unbind_scope] of a class that
    was neither in the scope table nor bound gives back the store it
    started from when the scope object was not in the stack; when it was
    there already, bound under another class, [unbind_scope] takes the
    first occurrence out, so the scope ends up at the end of the stack,
    after the scopes it used to come before. *)
Theorem bind_scope_unbind_scope w self inj app rest table K scope :
  injectors w !! self = Some inj →
  _scopes inj = Some table → _scopes_stack inj = Some (app :: rest) →
  _app_scope inj = Some app → stack_live w (app :: rest) →
  is_Some (scopes w !! scope) →
  table !! K = None → (∀ a, a ∈ app :: rest → bound_in w K a = false) →
  unbind_scope self K w = (Ret (), w) ∧
  (scope ∉ app :: rest →
   (bind_scope self K scope;; unbind_scope self K) w = (Ret (), w)) ∧
  (∀ l1 l2, app :: rest = l1 ++ scope :: l2 → scope ∉ l1 →
   (bind_scope self K scope;; unbind_scope self K) w
   = (Ret (),
      with_injectors
        (<[self := mkInjector (autobind inj) (Some table)
                     (Some (l1 ++ l2 ++ [scope])) (Some app)]>
           (injectors w)) w)).
Proof.
  intros Hi Ht Hs Ha Hl Hscope HK Hfree.
  split; [by eapply unbind_scope_absent|].
  assert (is_Some (scopes w !! app)) as [sc Hsc]
    by by apply Forall_cons in Hl as [? _].
  assert (∀ a, a ∈ rest → bound_in w K a = false) as Hrest.
  { intros a Ha'. apply Hfree. by right. }
  destruct (bind_scope_new w self inj app rest table sc K scope
              Hi Ht Hs Ha Hl Hsc Hscope HK Hrest) as (Hbs & Hok' & _ & _).
  set (wb := with_scopes (<[app := scope_with K (VScope scope) sc]> (scopes w)) w)
    in *.
  set (inj' := mkInjector (autobind inj) (Some (<[K := scope]> table))
                 (Some (app :: rest ++ [scope])) (Some app)) in *.
  set (w' := with_injectors (<[self := inj']> (injectors w)) wb) in *.
  assert (bound_in w K app = false) as Hfa by (apply Hfree; left).
  assert (_bindings sc !! K = None) as HKsc.
  { unfold bound_in in Hfa. rewrite Hsc in Hfa.
    apply bool_decide_eq_false in Hfa. by apply eq_None_not_Some. }
  assert (unbind self K w' = (Ret (), with_injectors (<[self := inj']> (injectors w)) w))
    as Hun.
  { unfold unbind.
    erewrite bind_M_Ret;
      [|eapply get_scopes_stack_Some; [apply lookup_insert_eq|done]].
    destruct Hok' as [_ Hl'].
    etrans; [apply (unbind_loop_first w' [] app (rest ++ [scope])
                      (scope_with K (VScope scope) sc) K Hl')|].
    - by intros a ?%elem_of_nil.
    - apply lookup_insert_eq.
    - cbn. by rewrite lookup_insert_eq.
    - unfold w', wb, with_injectors, with_scopes. cbn. f_equal. f_equal.
      rewrite insert_insert_eq. unfold scope_without, scope_with. cbn.
      rewrite delete_insert_eq, delete_id by done.
      destruct sc. by apply insert_id. }
  assert (∀ stack',
    list_remove scope (app :: rest ++ [scope]) = Some stack' →
    (bind_scope self K scope;; unbind_scope self K) w
    = (Ret (),
       with_injectors
         (<[self := mkInjector (autobind inj) (Some table) (Some stack')
                      (Some app)]> (injectors w)) w)) as Hgen.
  { intros stack' Hrm. rewrite (bind_M_Ret _ _ _ _ _ Hbs).
    erewrite (unbind_scope_present w' _ self inj'); try done.
    - rewrite Hrm. cbn. rewrite insert_insert_eq.
      by rewrite delete_insert_eq, delete_id.
    - apply lookup_insert_eq.
    - apply lookup_insert_eq.
    - apply lookup_insert_eq. }
  split.
  - intros Hnotin. rewrite (Hgen (app :: rest)).
    + f_equal. destruct inj as [ab t s a]. cbn in *. subst.
      rewrite insert_id by done. by destruct w.
    + by apply (list_remove_last scope (app :: rest)).
  - intros l1 l2 Hsplit Hnotin. apply Hgen.
    change (app :: rest ++ [scope]) with ((app :: rest) ++ [scope]).
    rewrite Hsplit, <- app_assoc. cbn.
    by apply (list_remove_first scope l1 (l2 ++ [scope])).
Qed.
End bind_scope.

(** ** What the binding methods leave alone *)

Lemma other_key_ne type : type ≠ other_key type.
Proof. unfold other_key. by case_decide; subst. Qed.

#[global] Instance keeps_objects_preorder : PreOrder keeps_objects.
Proof.
  split; [by split|].
  intros w1 w2 w3 [??] [??]. split; by etrans.
Qed.

Lemma frame_keeps_objects T w w' : frame T w w' → keeps_objects w w'.
Proof.
  intros [Hi Hs]. split; [done|]. intros a [s Ha]%elem_of_dom.
  destruct (Hs _ _ Ha) as (s' & Hs' & _). apply elem_of_dom. by eexists.
Qed.

Section slot_resolution.
Context (classes : positive → option callable).

Hint Resolve slot_store_scope slot_Scope_bind slot_Scope_unbind
  slot_Scope_is_bound slot_get_scopes_stack slot_get_scopes
  slot_get_app_scope slot_is_bound slot_unbind slot_bind slot_new_scope
  slot_Injector_new : preserved.

Lemma slot_Scope_bind_factory scope type factory :
  preserved same_slot (Scope_bind_factory scope type factory).
Proof. unfold Scope_bind_factory. preserved_auto. Qed.

Lemma slot_Scope_unbind_factory scope type :
  preserved same_slot (Scope_unbind_factory scope type).
Proof. unfold Scope_unbind_factory. preserved_auto. Qed.

Lemma slot_Scope_is_factory_bound scope type :
  preserved same_slot (Scope_is_factory_bound scope type).
Proof. unfold Scope_is_factory_bound. preserved_auto. Qed.

Hint Resolve slot_Scope_bind_factory slot_Scope_unbind_factory
  slot_Scope_is_factory_bound : preserved.

Lemma slot_is_factory_bound self type :
  preserved same_slot (is_factory_bound self type).
Proof.
  unfold is_factory_bound. preserved_step; [preserved_auto|].
  induction a; cbn; preserved_auto.
Qed.

Lemma slot_unbind_factory self type :
  preserved same_slot (unbind_factory self type).
Proof.
  unfold unbind_factory. preserved_step; [preserved_auto|].
  induction a; cbn; preserved_auto.
Qed.

Hint Resolve slot_is_factory_bound slot_unbind_factory : preserved.

Lemma slot_bind_factory self type factory :
  preserved same_slot (bind_factory self type factory).
Proof. unfold bind_factory. preserved_auto. Qed.

Lemma slot_is_scope_bound self type :
  preserved same_slot (is_scope_bound self type).
Proof. unfold is_scope_bound. preserved_auto. Qed.

Lemma slot_call type : preserved same_slot (call classes type).
Proof.
  destruct type as [| | | |n]; cbn; preserved_auto. by intros w.
Qed.

Hint Resolve slot_call : preserved.

Lemma slot_Scope_get scope type :
  preserved same_slot (Scope_get classes scope type).
Proof. unfold Scope_get. preserved_auto. Qed.

Hint Resolve slot_Scope_get : preserved.

Lemma slot_get self type none :
  preserved same_slot (get classes self type none).
Proof.
  unfold get. preserved_step; [preserved_auto|].
  preserved_step; [|preserved_auto].
  induction a; cbn; preserved_auto.
Qed.

(** X9. The methods that work on bindings and factories ([bind],
    [unbind], [get], [in], [is_bound], the three factory methods,
    [is_scope_bound]) leave every injector object as it is (its scope
    stack, scope table, application scope and [autobind] flag), remove no
    scope object, and leave the registration slot alone, whether they
    return or raise. *)
Theorem binding_methods_keep_injectors self o w :
  binding_level o = true →
  keeps_objects w (run_op classes self o w) ∧
  same_slot w (run_op classes self o w).
Proof.
  intros Ho. destruct o; try discriminate Ho; unfold run_op, contains; split;
    try (apply (frame_keeps_objects (other_key type)));
    try (apply (frame_keeps_objects (other_key scope_type))).
  - apply frame_bind, other_key_ne.
  - apply slot_bind.
  - apply frame_unbind, other_key_ne.
  - apply slot_unbind.
  - apply frame_get, other_key_ne.
  - apply slot_get.
  - apply frame_is_bound.
  - apply slot_is_bound.
  - apply frame_is_bound.
  - apply slot_is_bound.
  - apply frame_bind_factory.
  - apply slot_bind_factory.
  - apply frame_unbind_factory.
  - apply slot_unbind_factory.
  - apply frame_is_factory_bound.
  - apply slot_is_factory_bound.
  - apply frame_is_scope_bound.
  - apply slot_is_scope_bound.
Qed.
End slot_resolution.

(** ** The scope table and the scope stack stay in sync *)

Lemma in_sync_default ab app thr req :
  app ≠ thr → app ≠ req → thr ≠ req →
  in_sync (default_injector ab app thr req).
Proof.
  intros ???. eexists _, _. split; [done|]. split; [done|].
  rewrite map_to_list_insert by by rewrite !lookup_insert_ne.
  rewrite map_to_list_insert by by rewrite !lookup_insert_ne.
  rewrite map_to_list_insert by done.
  rewrite map_to_list_empty. cbn.
  etrans; [apply Permutation_swap|]. etrans; [apply perm_skip, Permutation_swap|].
  apply Permutation_swap.
Qed.

Lemma unbind_keeps_injectors self type w :
  injectors w ⊆ injectors (unbind self type w).2.
Proof. apply (frame_unbind (other_key type)), other_key_ne. Qed.

Lemma bind_keeps_injectors self type to w :
  injectors w ⊆ injectors (bind self type to w).2.
Proof. apply (frame_bind (other_key type)), other_key_ne. Qed.

Lemma in_sync_elem_of (table : gmap tkey addr) (stack : list addr) K scope :
  (map_to_list table).*2 ≡ₚ stack → table !! K = Some scope → scope ∈ stack.
Proof.
  intros Hp HK. rewrite <- Hp. apply list_elem_of_fmap.
  exists (K, scope). split; [done|]. by apply elem_of_map_to_list.
Qed.

Lemma in_sync_delete (table : gmap tkey addr) (stack stack' : list addr) K scope :
  (map_to_list table).*2 ≡ₚ stack → table !! K = Some scope →
  list_remove scope stack = Some stack' →
  (map_to_list (delete K table)).*2 ≡ₚ stack'.
Proof.
  intros Hp HK Hrm. apply (Permutation_cons_inv (a := scope)).
  rewrite <- (list_remove_Some _ _ _ Hrm), <- Hp.
  by rewrite <- (map_to_list_delete table K scope HK).
Qed.

Lemma in_sync_insert (table : gmap tkey addr) (stack : list addr) K scope :
  (map_to_list table).*2 ≡ₚ stack → table !! K = None →
  (map_to_list (<[K := scope]> table)).*2 ≡ₚ stack ++ [scope].
Proof.
  intros Hp HK. rewrite map_to_list_insert by done. cbn. rewrite Hp.
  apply Permutation_cons_append.
Qed.

(** [unbind_scope] keeps the table and the stack in sync whatever its
    outcome, the application scope and the flag as they are, and when it
    returns the class is not in the table any more. *)
Lemma unbind_scope_in_sync w self inj K :
  injectors w !! self = Some inj → in_sync inj →
  ∃ inj1 table1,
    injectors (unbind_scope self K w).2 !! self = Some inj1 ∧
    in_sync inj1 ∧ _scopes inj1 = Some table1 ∧
    ((unbind_scope self K w).1 = Ret () → table1 !! K = None).
Proof.
  intros Hi (table & stack & Ht & Hs & Hp).
  destruct (table !! K) as [scope|] eqn:HK.
  - destruct (unbind self K w) as [[[]|e] w1] eqn:Hun.
    + assert (injectors w1 !! self = Some inj) as Hi1.
      { pose proof (unbind_keeps_injectors self K w) as Hsub.
        rewrite Hun in Hsub. by eapply lookup_weaken. }
      rewrite (unbind_scope_present w w1 self inj table stack K scope)
        by done.
      destruct (list_remove_elem_of scope stack) as [stack' Hrm].
      { by eapply in_sync_elem_of. }
      rewrite Hrm. cbn. eexists _, _. split; [apply lookup_insert_eq|].
      split; [|split; [done|]].
      * eexists _, _. split; [done|]. split; [done|]. by eapply in_sync_delete.
      * intros _. apply lookup_delete_eq.
    + assert (unbind_scope self K w = (Exc e, w1)) as ->.
      { unfold unbind_scope.
        rewrite (bind_M_Ret _ _ _ _ _ (get_scopes_Some _ _ _ _ Hi Ht)).
        rewrite bool_decide_false by (by rewrite HK).
        by rewrite (bind_M_Exc _ _ _ _ _ Hun). }
      cbn. exists inj, table. split; [|split; [|split; [done|done]]].
      * pose proof (unbind_keeps_injectors self K w) as Hsub.
        rewrite Hun in Hsub. by eapply lookup_weaken.
      * by exists table, stack.
  - rewrite (unbind_scope_absent w self inj table K) by done.
    exists inj, table. split; [done|]. split; [by exists table, stack|done].
Qed.

Lemma bind_scope_in_sync w self inj K scope :
  injectors w !! self = Some inj → in_sync inj →
  Injector_in_sync (bind_scope self K scope w).2 self.
Proof.
  intros Hi Hsync.
  destruct (unbind_scope_in_sync w self inj K Hi Hsync)
    as (inj1 & table1 & Hi1 & Hsync1 & Ht1 & HK).
  destruct (unbind_scope self K w) as [[[]|e] w1] eqn:Hus; cbn in *.
  - specialize (HK eq_refl).
    destruct (bind self K (VScope scope) w1) as [[[]|e] w2] eqn:Hb.
    + assert (injectors w2 !! self = Some inj1) as Hi2.
      { pose proof (bind_keeps_injectors self K (VScope scope) w1) as Hsub.
        rewrite Hb in Hsub. by eapply lookup_weaken. }
      destruct Hsync1 as (table & stack & Ht & Hs & Hp).
      rewrite (bind_scope_steps w w1 w2 self inj1 table stack K scope)
        by done.
      cbn. eexists. split; [apply lookup_insert_eq|].
      eexists _, _. split; [done|]. split; [done|].
      apply in_sync_insert; [done|congruence].
    + unfold bind_scope. rewrite (bind_M_Ret _ _ _ _ _ Hus).
      rewrite (bind_M_Exc _ _ _ _ _ Hb). cbn. exists inj1. split; [|done].
      pose proof (bind_keeps_injectors self K (VScope scope) w1) as Hsub.
      rewrite Hb in Hsub. by eapply lookup_weaken.
  - unfold bind_scope. rewrite (bind_M_Exc _ _ _ _ _ Hus). cbn. by exists inj1.
Qed.

Section in_sync.
Context (classes : positive → option callable).

Lemma run_op_in_sync self o w :
  Injector_in_sync w self → Injector_in_sync (run_op classes self o w) self.
Proof.
  intros (inj & Hi & Hsync).
  destruct (binding_level o) eqn:Hb.
  { destruct (binding_methods_keep_injectors classes self o w Hb) as [[Hsub _] _].
    exists inj. split; [|done]. by eapply lookup_weaken. }
  destruct o; try discriminate Hb; unfold run_op.
  - by eapply bind_scope_in_sync.
  - destruct (unbind_scope_in_sync w self inj scope_type Hi Hsync)
      as (inj1 & table1 & Hi1 & Hsync1 & _). by exists inj1.
  - destruct (clear_spec w self inj Hi) as (app & thr & req & Hn & ->).
    eexists. split; [apply lookup_insert_eq|].
    destruct Hn as (_ & _ & _ & ? & ? & ?). by apply in_sync_default.
  - exists inj. split; [|done]. unfold register, cls_register.
    by destruct (Injector_injector w).
  - exists inj. split; [|done]. unfold unregister, cls_unregister.
    by case_bool_decide.
  - by exists inj.
Qed.

(** X10. The scope table and the scope stack of an injector hold the
    same scope objects, with the same multiplicity: the constructor
    leaves them so, and every public method keeps them so, whether it
    returns or raises.  On such an injector whose stack scopes exist,
    [unbind_scope] always returns: the scope it looks up in the table is
    in the stack, so that [list.remove] cannot fail. *)
Theorem scopes_stay_in_sync :
  (∀ w ab echo,
     ∃ self, (Injector_new ab echo w).1 = Ret self ∧
             Injector_in_sync (Injector_new ab echo w).2 self) ∧
  (∀ w self ops,
     Injector_in_sync w self →
     Injector_in_sync (run_ops classes self ops w) self) ∧
  (∀ w self stack app K,
     Injector_in_sync w self → Injector_at w self stack app →
     ∃ w', unbind_scope self K w = (Ret (), w')).
Proof.
  split; [|split].
  - intros w ab echo. destruct (Injector_new_spec w ab echo)
      as (self & app & thr & req & Hs & Hn & ->).
    exists self. split; [done|]. eexists. split; [apply lookup_insert_eq|].
    destruct Hn as (_ & _ & _ & ? & ? & ?). by apply in_sync_default.
  - intros w self ops. revert w.
    induction ops as [|o ops IH]; intros w Hsync; [done|]. cbn.
    by apply IH, run_op_in_sync.
  - intros w self stack app K (inj & Hi & Hsync) [(inj' & Hi' & Hs' & _) Hl].
    assert (inj' = inj) as -> by congruence.
    pose proof Hsync as (table & stack' & Ht & Hs & Hp).
    assert (stack' = stack) as -> by congruence.
    destruct (table !! K) as [scope|] eqn:HK.
    + destruct (unbind_loop_live w stack K Hl) as (w1 & Hun & Ei & _).
      assert (unbind self K w = (Ret (), w1)) as Hun'.
      { unfold unbind.
        by rewrite (bind_M_Ret _ _ _ _ _ (get_scopes_stack_Some _ _ _ _ Hi Hs)). }
      rewrite (unbind_scope_present w w1 self inj table stack K scope)
        by (done || by rewrite Ei).
      destruct (list_remove_elem_of scope stack) as [st' ->];
        [by eapply in_sync_elem_of|by eexists].
    + exists w. by eapply unbind_scope_absent.
Qed.
End in_sync.

(** ** Bindings and factories are separate *)

#[global] Instance same_bindings_preorder : PreOrder same_bindings.
Proof.
  split; [done|]. intros w1 w2 w3 H1 H2 a. by rewrite H2, H1.
Qed.

#[global] Instance same_factories_preorder : PreOrder same_factories.
Proof.
  split; [done|]. intros w1 w2 w3 H1 H2 a. by rewrite H2, H1.
Qed.

Lemma same_bindings_store_scope w scope s s' :
  scopes w !! scope = Some s → _bindings s' = _bindings s →
  same_bindings w (store_scope scope s' w).2.
Proof.
  intros Hs E a. cbn. destruct (decide (scope = a)) as [->|].
  - rewrite lookup_insert_eq, Hs. cbn. by rewrite E.
  - by rewrite lookup_insert_ne.
Qed.

Lemma same_factories_store_scope w scope s s' :
  scopes w !! scope = Some s → _factories s' = _factories s →
  same_factories w (store_scope scope s' w).2.
Proof.
  intros Hs E a. cbn. destruct (decide (scope = a)) as [->|].
  - rewrite lookup_insert_eq, Hs. cbn. by rewrite E.
  - by rewrite lookup_insert_ne.
Qed.

Section namespaces.

Lemma bindings_Scope_bind_factory scope type factory :
  preserved same_bindings (Scope_bind_factory scope type factory).
Proof.
  intros w. unfold Scope_bind_factory, bind_M, load_scope.
  destruct (scopes w !! scope) as [s|] eqn:Hs; [|done].
  by apply (same_bindings_store_scope _ _ s).
Qed.

Lemma bindings_Scope_unbind_factory scope type :
  preserved same_bindings (Scope_unbind_factory scope type).
Proof.
  intros w. unfold Scope_unbind_factory, bind_M, load_scope.
  destruct (scopes w !! scope) as [s|] eqn:Hs; [|done].
  by apply (same_bindings_store_scope _ _ s).
Qed.

Lemma factories_Scope_bind scope type to :
  preserved same_factories (Scope_bind scope type to).
Proof.
  intros w. unfold Scope_bind, bind_M, load_scope.
  destruct (scopes w !! scope) as [s|] eqn:Hs; [|done].
  by apply (same_factories_store_scope _ _ s).
Qed.

Lemma factories_Scope_unbind scope type :
  preserved same_factories (Scope_unbind scope type).
Proof.
  intros w. unfold Scope_unbind, bind_M, load_scope.
  destruct (scopes w !! scope) as [s|] eqn:Hs; [|done].
  by apply (same_factories_store_scope _ _ s).
Qed.

Hint Resolve bindings_Scope_bind_factory bindings_Scope_unbind_factory
  factories_Scope_bind factories_Scope_unbind : preserved.

Lemma bindings_is_factory_bound self type :
  preserved same_bindings (is_factory_bound self type).
Proof.
  unfold is_factory_bound, get_scopes_stack.
  preserved_step; [preserved_auto|].
  induction a; cbn; unfold Scope_is_factory_bound; preserved_auto.
Qed.

Lemma bindings_unbind_factory self type :
  preserved same_bindings (unbind_factory self type).
Proof.
  unfold unbind_factory, get_scopes_stack.
  preserved_step; [preserved_auto|].
  induction a; cbn; unfold Scope_is_factory_bound; preserved_auto.
Qed.

Hint Resolve bindings_is_factory_bound bindings_unbind_factory : preserved.

Lemma bindings_bind_factory self type factory :
  preserved same_bindings (bind_factory self type factory).
Proof. unfold bind_factory, get_app_scope. preserved_auto. Qed.

Lemma factories_is_bound self type :
  preserved same_factories (is_bound self type).
Proof.
  unfold is_bound, get_scopes_stack. preserved_step; [preserved_auto|].
  induction a; cbn; unfold Scope_is_bound; preserved_auto.
Qed.

Lemma factories_unbind self type :
  preserved same_factories (unbind self type).
Proof.
  unfold unbind, get_scopes_stack. preserved_step; [preserved_auto|].
  induction a; cbn; unfold Scope_is_bound; preserved_auto.
Qed.

Hint Resolve factories_is_bound factories_unbind : preserved.

Lemma factories_bind self type to :
  preserved same_factories (bind self type to).
Proof. unfold bind, get_app_scope. preserved_auto. Qed.

(** X11. Bindings and factories are two separate namespaces for the
    injector: [bind_factory] and [unbind_factory] never add, change or
    remove a binding in any scope, and [bind] and [unbind] never add,
    change or remove a factory, whether they return or raise; so a type
    can be bound and have a factory at once, and neither pair of methods
    changes what the other's query reads from a scope. *)
Theorem bindings_and_factories_are_separate w self T :
  (∀ factory,
     same_bindings w (bind_factory self T factory w).2 ∧
     ∀ a T', bound_in (bind_factory self T factory w).2 T' a
             = bound_in w T' a) ∧
  (same_bindings w (unbind_factory self T w).2 ∧
   ∀ a T', bound_in (unbind_factory self T w).2 T' a = bound_in w T' a) ∧
  (∀ to,
     same_factories w (bind self T to w).2 ∧
     ∀ a T', factory_bound_in (bind self T to w).2 T' a
             = factory_bound_in w T' a) ∧
  (same_factories w (unbind self T w).2 ∧
   ∀ a T', factory_bound_in (unbind self T w).2 T' a
           = factory_bound_in w T' a).
Proof.
  assert (∀ w', same_bindings w w' →
            ∀ a T', bound_in w' T' a = bound_in w T' a) as Hb.
  { intros w' H a T'. specialize (H a). unfold bound_in.
    destruct (scopes w' !! a), (scopes w !! a); cbn in H; try done.
    by injection H as ->. }
  assert (∀ w', same_factories w w' →
            ∀ a T', factory_bound_in w' T' a = factory_bound_in w T' a) as Hf.
  { intros w' H a T'. specialize (H a). unfold factory_bound_in.
    destruct (scopes w' !! a), (scopes w !! a); cbn in H; try done.
    by injection H as ->. }
  repeat split.
  - apply bindings_bind_factory.
  - apply Hb, bindings_bind_factory.
  - apply bindings_unbind_factory.
  - apply Hb, bindings_unbind_factory.
  - apply factories_bind.
  - apply Hf, factories_bind.
  - apply factories_unbind.
  - apply Hf, factories_unbind.
Qed.
End namespaces.

(** ** [bind_factory], [unbind_factory] and [is_factory_bound] *)

Lemma Scope_bind_factory_live w scope s type factory :
  scopes w !! scope = Some s →
  Scope_bind_factory scope type factory w
  = (Ret (),
     with_scopes (<[scope := scope_with_factory type factory s]> (scopes w)) w).
Proof.
  intros Hs. unfold Scope_bind_factory.
  by rewrite (bind_M_Ret _ _ _ _ _ (load_scope_Some _ _ _ Hs)).
Qed.

Lemma Scope_unbind_factory_live w scope s type :
  scopes w !! scope = Some s →
  Scope_unbind_factory scope type w
  = (Ret (),
     with_scopes (<[scope := scope_without_factory type s]> (scopes w)) w).
Proof.
  intros Hs. unfold Scope_unbind_factory.
  by rewrite (bind_M_Ret _ _ _ _ _ (load_scope_Some _ _ _ Hs)).
Qed.

Lemma unbind_factory_loop_none w stack type :
  stack_live w stack → existsb (factory_bound_in w type) stack = false →
  unbind_factory_loop stack type w = (Ret (), w).
Proof.
  induction 1 as [|a rest Ha _ IH]; [done|]. cbn.
  intros [Hb Hr]%orb_false_elim.
  rewrite (bind_M_Ret _ _ _ _ _ (Scope_is_factory_bound_live _ _ type Ha)), Hb.
  by apply IH.
Qed.

Lemma unbind_factory_loop_head w scope rest s type :
  stack_live w (scope :: rest) →
  scopes w !! scope = Some s → is_Some (_factories s !! type) →
  unbind_factory_loop (scope :: rest) type w
  = (Ret (),
     with_scopes (<[scope := scope_without_factory type s]> (scopes w)) w).
Proof.
  intros Hl Hs Hb. cbn. apply Forall_cons in Hl as [Ha _].
  rewrite (bind_M_Ret _ _ _ _ _ (Scope_is_factory_bound_live _ _ type Ha)).
  unfold factory_bound_in. rewrite Hs, bool_decide_true by done.
  by apply Scope_unbind_factory_live.
Qed.

(** [bind_factory] when no scope after the head has a factory for the
    type: the head scope gets the factory and nothing else changes. *)
Lemma bind_factory_head w self app rest s type factory :
  Injector_ok w self app rest → scopes w !! app = Some s →
  (∀ a, a ∈ rest → factory_bound_in w type a = false) →
  bind_factory self type factory w
  = (Ret (),
     with_scopes (<[app := scope_with_factory type factory s]> (scopes w)) w).
Proof.
  intros Hok Hs Hrest. pose proof Hok as [(inj & Hi & Hst & Ha) Hl].
  unfold bind_factory.
  rewrite (bind_M_Ret _ _ _ _ _ (is_factory_bound_live _ _ _ _ type Hok)).
  assert (existsb (factory_bound_in w type) rest = false) as Hr.
  { apply not_true_is_false. intros (a & Ha' & Hba)%existsb_exists.
    apply list_elem_of_In, Hrest in Ha'. congruence. }
  cbn [existsb]. rewrite Hr, orb_false_r.
  destruct (factory_bound_in w type app) eqn:Hb.
  - assert (is_Some (_factories s !! type)) as Hbs.
    { unfold factory_bound_in in Hb. rewrite Hs in Hb.
      by apply bool_decide_eq_true in Hb. }
    erewrite bind_M_Ret; cycle 1.
    { unfold unbind_factory.
      rewrite (bind_M_Ret _ _ _ _ _ (get_scopes_stack_Some _ _ _ _ Hi Hst)).
      by apply (unbind_factory_loop_head w app rest s type Hl). }
    erewrite bind_M_Ret; [|by eapply get_app_scope_Some].
    erewrite Scope_bind_factory_live; [|apply lookup_insert_eq].
    cbn. rewrite insert_insert_eq. unfold scope_with_factory. cbn.
    by rewrite insert_delete_eq.
  - unfold bind_M at 1. cbn.
    rewrite (bind_M_Ret _ _ _ _ _ (get_app_scope_Some _ _ _ _ Hi Ha)).
    by apply Scope_bind_factory_live.
Qed.

Section factories.
Context (classes : positive → option callable).

(** X12. On an injector whose application scope heads the stack, for a
    type that has no factory in a later scope: after [bind_factory] the
    type has a factory ([is_factory_bound] is true) and [get] of the
    type is answered by the application scope, whose [get] uses its
    binding for the type if it has one and the factory otherwise; after a
    following [unbind_factory] it has none; the two calls together leave
    the application scope without a factory for the type and the rest of
    the store as it was, so that when the type had no factory to begin
    with, the store is the one they started from. *)
Theorem bind_factory_unbind_factory_round_trip w self app rest T factory :
  Injector_ok w self app rest →
  (∀ a, a ∈ rest → factory_bound_in w T a = false) →
  ∃ s w1 w2,
    scopes w !! app = Some s ∧
    bind_factory self T factory w = (Ret (), w1) ∧
    is_factory_bound self T w1 = (Ret true, w1) ∧
    (∀ none, get classes self T none w1 = Scope_get classes app T w1) ∧
    unbind_factory self T w1 = (Ret (), w2) ∧
    is_factory_bound self T w2 = (Ret false, w2) ∧
    w2 = with_scopes (<[app := scope_without_factory T s]> (scopes w)) w ∧
    (factory_bound_in w T app = false → w2 = w).
Proof.
  intros Hok Hrest. destruct (Injector_ok_app_live _ _ _ _ Hok) as [s Hs].
  pose proof Hok as [(inj & Hi & Hst & Ha) Hl].
  set (w1 := with_scopes (<[app := scope_with_factory T factory s]> (scopes w)) w).
  set (w2 := with_scopes (<[app := scope_without_factory T s]> (scopes w)) w).
  assert (Injector_ok w1 self app rest) as Hok1
    by by apply Injector_at_store_scope.
  assert (Injector_ok w2 self app rest) as Hok2
    by by apply Injector_at_store_scope.
  assert (factory_bound_in w1 T app = true) as Hfb1.
  { unfold factory_bound_in, w1. cbn. rewrite lookup_insert_eq. cbn.
    rewrite lookup_insert_eq. by rewrite bool_decide_true. }
  exists s, w1, w2. split; [done|].
  split; [by apply (bind_factory_head w self app rest)|].
  split; [|split; [|split; [|split; [|split; [done|]]]]].
  - rewrite (is_factory_bound_live _ _ _ _ T Hok1). cbn [existsb].
    by rewrite Hfb1.
  - intros none. apply (get_found classes w1 self [] app rest app T none Hok1).
    + by intros a ?%elem_of_nil.
    + unfold holds. rewrite Hfb1. apply orb_true_r.
  - unfold unbind_factory.
    rewrite (bind_M_Ret _ _ _ _ _ (get_scopes_stack_Some w1 _ _ _ Hi Hst)).
    destruct Hok1 as [_ Hl1].
    etrans; [apply (unbind_factory_loop_head w1 app rest
                      (scope_with_factory T factory s) T Hl1)|].
    + apply lookup_insert_eq.
    + cbn. by rewrite lookup_insert_eq.
    + unfold w1, w2. cbn. rewrite insert_insert_eq.
      unfold scope_without_factory. cbn. by rewrite delete_insert_eq.
  - rewrite (is_factory_bound_live _ _ _ _ T Hok2). f_equal. f_equal.
    apply not_true_is_false. intros (a & Ha' & Hba)%existsb_exists.
    apply list_elem_of_In, elem_of_cons in Ha'.
    unfold factory_bound_in, w2 in Hba. cbn in Hba.
    destruct (decide (app = a)) as [<-|Hne].
    + rewrite lookup_insert_eq in Hba. cbn in Hba.
      rewrite lookup_delete_eq in Hba.
      by apply bool_decide_eq_true in Hba as [??].
    + destruct Ha' as [->|Ha']; [done|].
      rewrite lookup_insert_ne in Hba by done.
      specialize (Hrest a Ha'). unfold factory_bound_in in Hrest. congruence.
  - intros Hb. unfold w2, scope_without_factory. unfold factory_bound_in in Hb.
    rewrite Hs in Hb. apply bool_decide_eq_false in Hb.
    rewrite delete_id by (by apply eq_None_not_Some).
    destruct s. rewrite insert_id by done. apply with_scopes_id.
Qed.
End factories.

(** ** The further properties on concrete stores *)

Ltac by_evaluation_ext :=
  lazymatch goal with
  | |- is_Some _ => vm_compute; eexists; reflexivity
  | |- _ ∉ _ => vm_compute; intros Hin; inversion Hin; subst;
                repeat match goal with
                       | H : _ ∈ _ |- _ => inversion H; clear H; subst
                       end
  | |- _ => by_evaluation
  end.

Lemma get_instance_needs_registration_witness :
  ∃ self w',
    create true false empty_world = (Ret self, w') ∧
    ∀ type none,
      get_instance example_classes type none w'
      = get example_classes self type none w' ∧
      get_instance example_classes K_Injector none w'
      = (Ret (VInjector self), w').
Proof.
  apply (proj2 (get_instance_needs_registration example_classes empty_world)
           true false).
  reflexivity.
Defined.

Lemma registration_hand_over_witness :
  register 2 (with_slot (Some 1%positive) w_default)
  = (Exc (InjectorAlreadyRegistered 1), with_slot (Some 1%positive) w_default).
Proof.
  apply (registration_hand_over (with_slot (Some 1%positive) w_default)
           1%positive 2%positive).
  - reflexivity.
  - discriminate.
Defined.

Lemma unbind_first_occurrence_witness :
  unbind 1 (K_user 3) w_default = (Ret (), w_default).
Proof.
  apply (proj1 (unbind_first_occurrence w_default 1 [1; 2; 3]%positive 1
                  (K_user 3) ltac:(by_evaluation))).
  by_evaluation.
Defined.

Lemma bind_unbind_round_trip_witness :
  ∃ s w1 w2,
    scopes w_default !! 1%positive = Some s ∧
    bind 1 (K_user 3) (VObj 7) w_default = (Ret (), w1) ∧
    is_bound 1 (K_user 3) w1 = (Ret true, w1) ∧
    contains 1 (K_user 3) w1 = (Ret true, w1) ∧
    unbind 1 (K_user 3) w1 = (Ret (), w2) ∧
    is_bound 1 (K_user 3) w2 = (Ret false, w2) ∧
    w2 = with_scopes
           (<[1%positive := scope_without (K_user 3) s]> (scopes w_default))
           w_default ∧
    (bound_in w_default (K_user 3) 1 = false → w2 = w_default).
Proof.
  apply (bind_unbind_round_trip w_default 1 1 [2; 3]%positive (K_user 3)
           (VObj 7)).
  - by_evaluation.
  - by_evaluation.
Defined.

Lemma bind_scope_new_witness :
  ∃ w', bind_scope 1 (K_user 3) 2 w_default = (Ret (), w') ∧
        is_scope_bound 1 (K_user 3) w' = (Ret true, w').
Proof.
  eexists.
  pose proof (bind_scope_new example_classes w_default 1
                (default_injector true 1 2 3) 1 [2; 3]%positive
                (<[K_RequestScope := 3%positive]>
                   (<[K_ThreadScope := 2%positive]>
                      (<[K_ApplicationScope := 1%positive]> ∅)))
                (default_app_scope 1 1 2 3) (K_user 3) 2
                ltac:(by_evaluation) eq_refl eq_refl eq_refl
                ltac:(by_evaluation) ltac:(by_evaluation)
                ltac:(by_evaluation_ext) ltac:(by_evaluation)
                ltac:(by_evaluation)) as (H1 & _ & H3 & _).
  split; [exact H1|exact H3].
Defined.

Lemma bind_scope_unbind_scope_witness :
  (bind_scope 1 (K_user 3) 2;; unbind_scope 1 (K_user 3)) w_default
  = (Ret (),
     with_injectors
       (<[1%positive := mkInjector true
                          (Some (<[K_RequestScope := 3%positive]>
                                   (<[K_ThreadScope := 2%positive]>
                                      (<[K_ApplicationScope := 1%positive]> ∅))))
                          (Some ([1%positive] ++ [3%positive] ++ [2%positive]))
                          (Some 1%positive)]>
          (injectors w_default)) w_default).
Proof.
  apply (proj2 (proj2
           (bind_scope_unbind_scope example_classes w_default 1
              (default_injector true 1 2 3) 1 [2; 3]%positive
              (<[K_RequestScope := 3%positive]>
                 (<[K_ThreadScope := 2%positive]>
                    (<[K_ApplicationScope := 1%positive]> ∅)))
              (K_user 3) 2
              ltac:(by_evaluation) eq_refl eq_refl eq_refl
              ltac:(by_evaluation) ltac:(by_evaluation_ext)
              ltac:(by_evaluation) ltac:(by_evaluation)))
           [1%positive] [3%positive]).
  - reflexivity.
  - by_evaluation_ext.
Defined.

Lemma binding_methods_keep_injectors_witness :
  keeps_objects w_default
    (run_op example_classes 1 (Op_get (K_user 1) false) w_default) ∧
  same_slot w_default
    (run_op example_classes 1 (Op_get (K_user 1) false) w_default).
Proof.
  apply (binding_methods_keep_injectors example_classes 1
           (Op_get (K_user 1) false) w_default).
  reflexivity.
Defined.

Lemma scopes_stay_in_sync_witness :
  Injector_in_sync
    (run_ops example_classes 1
       [Op_bind_scope (K_user 3) 2; Op_unbind_scope K_ThreadScope; Op_clear]
       w_default) 1.
Proof.
  apply (proj1 (proj2 (scopes_stay_in_sync example_classes)) w_default 1%positive).
  destruct (proj1 (scopes_stay_in_sync example_classes) empty_world true false)
    as (self & Hself & Hsync).
  vm_compute in Hself. injection Hself as <-. exact Hsync.
Defined.

Lemma bind_factory_unbind_factory_round_trip_witness :
  ∃ s w1 w2,
    scopes w_default !! 1%positive = Some s ∧
    bind_factory 1 (K_user 3) (K_user 1) w_default = (Ret (), w1) ∧
    is_factory_bound 1 (K_user 3) w1 = (Ret true, w1) ∧
    (∀ none, get example_classes 1 (K_user 3) none w1
             = Scope_get example_classes 1 (K_user 3) w1) ∧
    unbind_factory 1 (K_user 3) w1 = (Ret (), w2) ∧
    is_factory_bound 1 (K_user 3) w2 = (Ret false, w2) ∧
    w2 = with_scopes
           (<[1%positive := scope_without_factory (K_user 3) s]>
              (scopes w_default)) w_default ∧
    (factory_bound_in w_default (K_user 3) 1 = false → w2 = w_default).
Proof.
  apply (bind_factory_unbind_factory_round_trip example_classes w_default 1 1
           [2; 3]%positive (K_user 3) (K_user 1)).
  - by_evaluation.
  - by_evaluation.
Defined.

(** * Binding and autobinding once the application scope has left the stack *)

(** C1, at the inputs where it fails.  On a new injector built with
    [autobind=False], after [unbind_scope(ApplicationScope)] the call
    [bind(T, to=x)] returns, yet [get(T)] does not return [x]: it
    returns [None] with [none=True] and raises [NotBoundError(T)]
    without, and [is_bound(T)] is false.  The same happens after
    [bind_scope(ApplicationScope, s)] with a new scope object [s], where
    [is_scope_bound(ApplicationScope)] is still true: [bind] writes to
    the scope [_app_scope] refers to, which the stack no longer
    holds. *)
Theorem bind_then_get_without_application_scope :
  let w1 := (unbind_scope 1 K_ApplicationScope w_no_autobind).2 in
  let w2 := ((let! s := new_scope ApplicationScope in
              bind_scope 1 K_ApplicationScope s) w_no_autobind).2 in
  (bind 1 (K_user 3) (VObj 7) w1).1 = Ret () ∧
  ((bind 1 (K_user 3) (VObj 7);;
    get example_classes 1 (K_user 3) true) w1).1 = Ret VNone ∧
  ((bind 1 (K_user 3) (VObj 7);;
    get example_classes 1 (K_user 3) false) w1).1
  = Exc (NotBoundError (K_user 3)) ∧
  ((bind 1 (K_user 3) (VObj 7);; is_bound 1 (K_user 3)) w1).1 = Ret false ∧
  (is_scope_bound 1 K_ApplicationScope w2).1 = Ret true ∧
  (bind 1 (K_user 3) (VObj 7) w2).1 = Ret () ∧
  ((bind 1 (K_user 3) (VObj 7);;
    get example_classes 1 (K_user 3) true) w2).1 = Ret VNone ∧
  ((bind 1 (K_user 3) (VObj 7);;
    get example_classes 1 (K_user 3) false) w2).1
  = Exc (NotBoundError (K_user 3)).
Proof. vm_compute. done. Qed.

(** C5, at the input where it fails.  On a new injector with autobinding
    on, after [unbind_scope(ApplicationScope)], two consecutive
    [get(C)] of a class [C] that can be built with no argument return
    two different instances: the first [get] binds its instance in the
    scope [_app_scope] refers to, which the stack no longer holds, so
    the second [get] finds nothing and builds again; [is_bound(C)] is
    false after each. *)
Theorem autobind_twice_without_application_scope :
  let w1 := (unbind_scope 1 K_ApplicationScope w_default).2 in
  let w2 := (get example_classes 1 (K_user 1) false w1).2 in
  let w3 := (get example_classes 1 (K_user 1) false w2).2 in
  (get example_classes 1 (K_user 1) false w1).1 = Ret (VObj 1) ∧
  (is_bound 1 (K_user 1) w2).1 = Ret false ∧
  (get example_classes 1 (K_user 1) false w2).1 = Ret (VObj 2) ∧
  (is_bound 1 (K_user 1) w3).1 = Ret false ∧
  VObj 1 ≠ VObj 2.
Proof. vm_compute. done. Qed.

(** C3 as stated fails for a class whose constructor needs an argument:
    no scope holds it and it cannot be built with no argument, but it is
    callable, so with autobinding on [get] calls it and raises
    [AutobindingFailed], with [none=True] as with [none=False]. *)
Lemma get_unbound_needs_not_callable :
  ¬ get_unbound_as_stated classes_needing_argument w_default 1
      [1; 2; 3]%positive (K_user 4).
Proof.
  unfold get_unbound_as_stated. intros H.
  destruct H as [H _].
  - by_evaluation.
  - right. intros [_ Hc]. destruct (Hc w_default) as (inst & w' & Hcall).
    vm_compute in Hcall. discriminate Hcall.
  - vm_compute in H. discriminate H.
Qed.
